(** * crypt.py: frequency cryptanalysis of Caesar and monoalphabetic ciphers

    A shallow embedding of the class [CryptoAnalyzer] and of the two
    reference tables of [crypt.py], followed by the properties of the
    decryption transforms, of the scorer and of the key search.

    Conventions.
    - A Python [str] is the list of its Unicode code points; a character
      (a string of length one, as produced by iterating over a [str]) is
      one code point, so [ord] and [chr] are the identity on [Z].
    - Python integers are [Z]; [%] with a positive divisor is [Z.modulo].
    - Python floats are idealised: a finite float is an exact rational
      and [float('inf')] is a separate value.  Rounding is therefore not
      modelled; signs, comparisons of the table entries and the
      infinity sentinel are.
    - The interpreter's Unicode predicates ([str.isalpha], the white
      space of [str.split]) and [str.lower] are parameters of the
      development; module [Unicode] gives the tables of CPython 3.11
      (Unicode 14.0.0) to run the code on concrete texts. *)

From Stdlib Require Import ZArith QArith Qpower List Bool Lia Lqa.
From Stdlib Require Import String Ascii Permutation Sorted.
Import ListNotations.
Local Open Scope Z_scope.

(** ** Strings *)

Definition char := Z.
Definition str := list char.

Definition ord (c : char) : Z := c.
Definition chr (n : Z) : char := n.

(** Code point of an ASCII character and of an ASCII literal. *)
Definition cp (a : ascii) : char := Z.of_N (N_of_ascii a).
Definition lit (s : string) : str := List.map cp (list_ascii_of_string s).

Definition char_eqb (a b : char) : bool := Z.eqb a b.

Fixpoint str_eqb (a b : str) : bool :=
  match a, b with
  | [], [] => true
  | x :: a', y :: b' => char_eqb x y && str_eqb a' b'
  | _, _ => false
  end.

(** [len(s)] *)
Definition len {A : Type} (l : list A) : Z := Z.of_nat (List.length l).

(** [string.ascii_lowercase] *)
Definition ascii_lowercase : str := lit "abcdefghijklmnopqrstuvwxyz".

(** ** Dictionaries

    A [dict] keeps its entries in insertion order; assigning to an
    existing key keeps the key's position.  Keys are one-character
    strings everywhere in this program. *)

Module Dict.
Section Ops.
Context {V : Type}.

Definition t := list (char * V).

(** [d.get(k, default)] *)
Fixpoint get (d : t) (k : char) (default : V) : V :=
  match d with
  | [] => default
  | (k', v) :: d' => if char_eqb k' k then v else get d' k default
  end.

(** [k in d] *)
Fixpoint mem (d : t) (k : char) : bool :=
  match d with
  | [] => false
  | (k', _) :: d' => char_eqb k' k || mem d' k
  end.

(** [d[k] = v] *)
Fixpoint set (d : t) (k : char) (v : V) : t :=
  match d with
  | [] => [(k, v)]
  | (k', v') :: d' =>
      if char_eqb k' k then (k', v) :: d' else (k', v') :: set d' k v
  end.

(** [d.items()] and the keys in iteration order *)
Definition items (d : t) : list (char * V) := d.
Definition keys (d : t) : list char := List.map fst d.
End Ops.
Arguments t : clear implicits.
End Dict.

(** [collections.Counter(s)]: one pass over [s], counting each element. *)
Definition count_step (d : Dict.t Z) (c : char) : Dict.t Z :=
  Dict.set d c (Dict.get d c 0 + 1).

Definition Counter (s : str) : Dict.t Z := fold_left count_step s [].

(** ** Sorting and minimum

    [sorted(l, key=key, reverse=True)] is stable: it is the descending
    rearrangement of [l] in which elements with equal keys keep their
    relative order.  [ltb] is the [<] of the keys. *)

Section Ordering.
Context {A K : Type}.
Variable ltb : K -> K -> bool.
Variable key : A -> K.

Fixpoint insert_desc (x : A) (l : list A) : list A :=
  match l with
  | [] => [x]
  | y :: l' =>
      if ltb (key x) (key y) then y :: insert_desc x l' else x :: y :: l'
  end.

Fixpoint sorted_reverse (l : list A) : list A :=
  match l with
  | [] => []
  | x :: l' => insert_desc x (sorted_reverse l')
  end.

(** [min(l, key=key)]: the first element whose key no other element
    is below; [None] stands for the [ValueError] on an empty list. *)
Definition min_step (best x : A) : A :=
  if ltb (key x) (key best) then x else best.

Definition py_min (l : list A) : option A :=
  match l with
  | [] => None
  | x :: l' => Some (fold_left min_step l' x)
  end.
End Ordering.

(** ** Floats *)

Inductive float : Type :=
| Fin (q : Q)
| Inf.

Definition float_ltb (a b : float) : bool :=
  match a, b with
  | Fin x, Fin y => match (x ?= y)%Q with Lt => true | _ => false end
  | Fin _, Inf => true
  | Inf, _ => false
  end.

Definition float_le (a b : float) : Prop := float_ltb b a = false.

(** [a - b] for a finite [b] *)
Definition float_sub (a : float) (b : Q) : float :=
  match a with
  | Fin x => Fin (x - b)
  | Inf => Inf
  end.

Definition Q_ltb (x y : Q) : bool :=
  match (x ?= y)%Q with Lt => true | _ => false end.

(** ** Reference tables *)

Definition FR_FREQUENCIES : Dict.t Q :=
  [ (cp "e", 17.26); (cp "a", 8.23); (cp "i", 7.24); (cp "o", 5.28);
    (cp "n", 7.15); (cp "s", 7.94); (cp "r", 6.64); (cp "t", 7.30);
    (cp "u", 6.05); (cp "l", 5.34); (cp "d", 3.67); (cp "c", 3.15);
    (cp "p", 3.01); (cp "m", 2.74); (cp "h", 0.92); (cp "g", 1.04);
    (cp "f", 1.07); (cp "b", 1.47); (cp "v", 1.13); (cp "q", 0.89);
    (cp "j", 0.89); (cp "k", 0.00); (cp "w", 0.00); (cp "x", 0.54);
    (cp "y", 0.46); (cp "z", 0.12) ]%Q.

(** The word [à] is the single code point U+00E0. *)
Definition FR_COMMON_WORDS : list str :=
  [ lit "le"; lit "la"; lit "de"; lit "et"; [224]; lit "un"; lit "une";
    lit "les"; lit "des"; lit "en"; lit "par"; lit "pour"; lit "dans";
    lit "avec"; lit "sur"; lit "que"; lit "qui"; lit "est"; lit "il";
    lit "elle"; lit "vous"; lit "nous"; lit "je"; lit "tu"; lit "ce";
    lit "au"; lit "du"; lit "se"; lit "pas"; lit "plus"; lit "bien";
    lit "peu"; lit "fait" ].

(** [w in FR_COMMON_WORDS] *)
Definition in_words (w : str) (ws : list str) : bool :=
  existsb (str_eqb w) ws.

(** ** Unicode tables

    The tables of CPython 3.11 (Unicode 14.0.0). *)

Module Unicode.

Definition in_range (c : char) (r : Z * Z) : bool :=
  (fst r <=? c) && (c <=? snd r).

(** Code points of general category Lu, Ll, Lt, Lm or Lo, as
    inclusive ranges: the characters for which [str.isalpha] holds. *)
Definition letter_ranges : list (Z * Z) :=
[
  (65, 90); (97, 122); (170, 170); (181, 181); (186, 186); (192, 214);
  (216, 246); (248, 705); (710, 721); (736, 740); (748, 748); (750, 750);
  (880, 884); (886, 887); (890, 893); (895, 895); (902, 902); (904, 906);
  (908, 908); (910, 929); (931, 1013); (1015, 1153); (1162, 1327);
  (1329, 1366); (1369, 1369); (1376, 1416); (1488, 1514); (1519, 1522);
  (1568, 1610); (1646, 1647); (1649, 1747); (1749, 1749); (1765, 1766);
  (1774, 1775); (1786, 1788); (1791, 1791); (1808, 1808); (1810, 1839);
  (1869, 1957); (1969, 1969); (1994, 2026); (2036, 2037); (2042, 2042);
  (2048, 2069); (2074, 2074); (2084, 2084); (2088, 2088); (2112, 2136);
  (2144, 2154); (2160, 2183); (2185, 2190); (2208, 2249); (2308, 2361);
  (2365, 2365); (2384, 2384); (2392, 2401); (2417, 2432); (2437, 2444);
  (2447, 2448); (2451, 2472); (2474, 2480); (2482, 2482); (2486, 2489);
  (2493, 2493); (2510, 2510); (2524, 2525); (2527, 2529); (2544, 2545);
  (2556, 2556); (2565, 2570); (2575, 2576); (2579, 2600); (2602, 2608);
  (2610, 2611); (2613, 2614); (2616, 2617); (2649, 2652); (2654, 2654);
  (2674, 2676); (2693, 2701); (2703, 2705); (2707, 2728); (2730, 2736);
  (2738, 2739); (2741, 2745); (2749, 2749); (2768, 2768); (2784, 2785);
  (2809, 2809); (2821, 2828); (2831, 2832); (2835, 2856); (2858, 2864);
  (2866, 2867); (2869, 2873); (2877, 2877); (2908, 2909); (2911, 2913);
  (2929, 2929); (2947, 2947); (2949, 2954); (2958, 2960); (2962, 2965);
  (2969, 2970); (2972, 2972); (2974, 2975); (2979, 2980); (2984, 2986);
  (2990, 3001); (3024, 3024); (3077, 3084); (3086, 3088); (3090, 3112);
  (3114, 3129); (3133, 3133); (3160, 3162); (3165, 3165); (3168, 3169);
  (3200, 3200); (3205, 3212); (3214, 3216); (3218, 3240); (3242, 3251);
  (3253, 3257); (3261, 3261); (3293, 3294); (3296, 3297); (3313, 3314);
  (3332, 3340); (3342, 3344); (3346, 3386); (3389, 3389); (3406, 3406);
  (3412, 3414); (3423, 3425); (3450, 3455); (3461, 3478); (3482, 3505);
  (3507, 3515); (3517, 3517); (3520, 3526); (3585, 3632); (3634, 3635);
  (3648, 3654); (3713, 3714); (3716, 3716); (3718, 3722); (3724, 3747);
  (3749, 3749); (3751, 3760); (3762, 3763); (3773, 3773); (3776, 3780);
  (3782, 3782); (3804, 3807); (3840, 3840); (3904, 3911); (3913, 3948);
  (3976, 3980); (4096, 4138); (4159, 4159); (4176, 4181); (4186, 4189);
  (4193, 4193); (4197, 4198); (4206, 4208); (4213, 4225); (4238, 4238);
  (4256, 4293); (4295, 4295); (4301, 4301); (4304, 4346); (4348, 4680);
  (4682, 4685); (4688, 4694); (4696, 4696); (4698, 4701); (4704, 4744);
  (4746, 4749); (4752, 4784); (4786, 4789); (4792, 4798); (4800, 4800);
  (4802, 4805); (4808, 4822); (4824, 4880); (4882, 4885); (4888, 4954);
  (4992, 5007); (5024, 5109); (5112, 5117); (5121, 5740); (5743, 5759);
  (5761, 5786); (5792, 5866); (5873, 5880); (5888, 5905); (5919, 5937);
  (5952, 5969); (5984, 5996); (5998, 6000); (6016, 6067); (6103, 6103);
  (6108, 6108); (6176, 6264); (6272, 6276); (6279, 6312); (6314, 6314);
  (6320, 6389); (6400, 6430); (6480, 6509); (6512, 6516); (6528, 6571);
  (6576, 6601); (6656, 6678); (6688, 6740); (6823, 6823); (6917, 6963);
  (6981, 6988); (7043, 7072); (7086, 7087); (7098, 7141); (7168, 7203);
  (7245, 7247); (7258, 7293); (7296, 7304); (7312, 7354); (7357, 7359);
  (7401, 7404); (7406, 7411); (7413, 7414); (7418, 7418); (7424, 7615);
  (7680, 7957); (7960, 7965); (7968, 8005); (8008, 8013); (8016, 8023);
  (8025, 8025); (8027, 8027); (8029, 8029); (8031, 8061); (8064, 8116);
  (8118, 8124); (8126, 8126); (8130, 8132); (8134, 8140); (8144, 8147);
  (8150, 8155); (8160, 8172); (8178, 8180); (8182, 8188); (8305, 8305);
  (8319, 8319); (8336, 8348); (8450, 8450); (8455, 8455); (8458, 8467);
  (8469, 8469); (8473, 8477); (8484, 8484); (8486, 8486); (8488, 8488);
  (8490, 8493); (8495, 8505); (8508, 8511); (8517, 8521); (8526, 8526);
  (8579, 8580); (11264, 11492); (11499, 11502); (11506, 11507);
  (11520, 11557); (11559, 11559); (11565, 11565); (11568, 11623);
  (11631, 11631); (11648, 11670); (11680, 11686); (11688, 11694);
  (11696, 11702); (11704, 11710); (11712, 11718); (11720, 11726);
  (11728, 11734); (11736, 11742); (11823, 11823); (12293, 12294);
  (12337, 12341); (12347, 12348); (12353, 12438); (12445, 12447);
  (12449, 12538); (12540, 12543); (12549, 12591); (12593, 12686);
  (12704, 12735); (12784, 12799); (13312, 19903); (19968, 42124);
  (42192, 42237); (42240, 42508); (42512, 42527); (42538, 42539);
  (42560, 42606); (42623, 42653); (42656, 42725); (42775, 42783);
  (42786, 42888); (42891, 42954); (42960, 42961); (42963, 42963);
  (42965, 42969); (42994, 43009); (43011, 43013); (43015, 43018);
  (43020, 43042); (43072, 43123); (43138, 43187); (43250, 43255);
  (43259, 43259); (43261, 43262); (43274, 43301); (43312, 43334);
  (43360, 43388); (43396, 43442); (43471, 43471); (43488, 43492);
  (43494, 43503); (43514, 43518); (43520, 43560); (43584, 43586);
  (43588, 43595); (43616, 43638); (43642, 43642); (43646, 43695);
  (43697, 43697); (43701, 43702); (43705, 43709); (43712, 43712);
  (43714, 43714); (43739, 43741); (43744, 43754); (43762, 43764);
  (43777, 43782); (43785, 43790); (43793, 43798); (43808, 43814);
  (43816, 43822); (43824, 43866); (43868, 43881); (43888, 44002);
  (44032, 55203); (55216, 55238); (55243, 55291); (63744, 64109);
  (64112, 64217); (64256, 64262); (64275, 64279); (64285, 64285);
  (64287, 64296); (64298, 64310); (64312, 64316); (64318, 64318);
  (64320, 64321); (64323, 64324); (64326, 64433); (64467, 64829);
  (64848, 64911); (64914, 64967); (65008, 65019); (65136, 65140);
  (65142, 65276); (65313, 65338); (65345, 65370); (65382, 65470);
  (65474, 65479); (65482, 65487); (65490, 65495); (65498, 65500);
  (65536, 65547); (65549, 65574); (65576, 65594); (65596, 65597);
  (65599, 65613); (65616, 65629); (65664, 65786); (66176, 66204);
  (66208, 66256); (66304, 66335); (66349, 66368); (66370, 66377);
  (66384, 66421); (66432, 66461); (66464, 66499); (66504, 66511);
  (66560, 66717); (66736, 66771); (66776, 66811); (66816, 66855);
  (66864, 66915); (66928, 66938); (66940, 66954); (66956, 66962);
  (66964, 66965); (66967, 66977); (66979, 66993); (66995, 67001);
  (67003, 67004); (67072, 67382); (67392, 67413); (67424, 67431);
  (67456, 67461); (67463, 67504); (67506, 67514); (67584, 67589);
  (67592, 67592); (67594, 67637); (67639, 67640); (67644, 67644);
  (67647, 67669); (67680, 67702); (67712, 67742); (67808, 67826);
  (67828, 67829); (67840, 67861); (67872, 67897); (67968, 68023);
  (68030, 68031); (68096, 68096); (68112, 68115); (68117, 68119);
  (68121, 68149); (68192, 68220); (68224, 68252); (68288, 68295);
  (68297, 68324); (68352, 68405); (68416, 68437); (68448, 68466);
  (68480, 68497); (68608, 68680); (68736, 68786); (68800, 68850);
  (68864, 68899); (69248, 69289); (69296, 69297); (69376, 69404);
  (69415, 69415); (69424, 69445); (69488, 69505); (69552, 69572);
  (69600, 69622); (69635, 69687); (69745, 69746); (69749, 69749);
  (69763, 69807); (69840, 69864); (69891, 69926); (69956, 69956);
  (69959, 69959); (69968, 70002); (70006, 70006); (70019, 70066);
  (70081, 70084); (70106, 70106); (70108, 70108); (70144, 70161);
  (70163, 70187); (70272, 70278); (70280, 70280); (70282, 70285);
  (70287, 70301); (70303, 70312); (70320, 70366); (70405, 70412);
  (70415, 70416); (70419, 70440); (70442, 70448); (70450, 70451);
  (70453, 70457); (70461, 70461); (70480, 70480); (70493, 70497);
  (70656, 70708); (70727, 70730); (70751, 70753); (70784, 70831);
  (70852, 70853); (70855, 70855); (71040, 71086); (71128, 71131);
  (71168, 71215); (71236, 71236); (71296, 71338); (71352, 71352);
  (71424, 71450); (71488, 71494); (71680, 71723); (71840, 71903);
  (71935, 71942); (71945, 71945); (71948, 71955); (71957, 71958);
  (71960, 71983); (71999, 71999); (72001, 72001); (72096, 72103);
  (72106, 72144); (72161, 72161); (72163, 72163); (72192, 72192);
  (72203, 72242); (72250, 72250); (72272, 72272); (72284, 72329);
  (72349, 72349); (72368, 72440); (72704, 72712); (72714, 72750);
  (72768, 72768); (72818, 72847); (72960, 72966); (72968, 72969);
  (72971, 73008); (73030, 73030); (73056, 73061); (73063, 73064);
  (73066, 73097); (73112, 73112); (73440, 73458); (73648, 73648);
  (73728, 74649); (74880, 75075); (77712, 77808); (77824, 78894);
  (82944, 83526); (92160, 92728); (92736, 92766); (92784, 92862);
  (92880, 92909); (92928, 92975); (92992, 92995); (93027, 93047);
  (93053, 93071); (93760, 93823); (93952, 94026); (94032, 94032);
  (94099, 94111); (94176, 94177); (94179, 94179); (94208, 100343);
  (100352, 101589); (101632, 101640); (110576, 110579); (110581, 110587);
  (110589, 110590); (110592, 110882); (110928, 110930); (110948, 110951);
  (110960, 111355); (113664, 113770); (113776, 113788); (113792, 113800);
  (113808, 113817); (119808, 119892); (119894, 119964); (119966, 119967);
  (119970, 119970); (119973, 119974); (119977, 119980); (119982, 119993);
  (119995, 119995); (119997, 120003); (120005, 120069); (120071, 120074);
  (120077, 120084); (120086, 120092); (120094, 120121); (120123, 120126);
  (120128, 120132); (120134, 120134); (120138, 120144); (120146, 120485);
  (120488, 120512); (120514, 120538); (120540, 120570); (120572, 120596);
  (120598, 120628); (120630, 120654); (120656, 120686); (120688, 120712);
  (120714, 120744); (120746, 120770); (120772, 120779); (122624, 122654);
  (123136, 123180); (123191, 123197); (123214, 123214); (123536, 123565);
  (123584, 123627); (124896, 124902); (124904, 124907); (124909, 124910);
  (124912, 124926); (124928, 125124); (125184, 125251); (125259, 125259);
  (126464, 126467); (126469, 126495); (126497, 126498); (126500, 126500);
  (126503, 126503); (126505, 126514); (126516, 126519); (126521, 126521);
  (126523, 126523); (126530, 126530); (126535, 126535); (126537, 126537);
  (126539, 126539); (126541, 126543); (126545, 126546); (126548, 126548);
  (126551, 126551); (126553, 126553); (126555, 126555); (126557, 126557);
  (126559, 126559); (126561, 126562); (126564, 126564); (126567, 126570);
  (126572, 126578); (126580, 126583); (126585, 126588); (126590, 126590);
  (126592, 126601); (126603, 126619); (126625, 126627); (126629, 126633);
  (126635, 126651); (131072, 173791); (173824, 177976); (177984, 178205);
  (178208, 183969); (183984, 191456); (194560, 195101); (196608, 201546) ].

Definition isalpha (c : char) : bool := existsb (in_range c) letter_ranges.

(** The characters for which [str.isspace] holds; [str.split()]
    cuts at them. *)
Definition whitespace : list Z :=
  [9; 10; 11; 12; 13; 28; 29; 30; 31; 32; 133; 160; 5760; 8192; 8193; 8194; 8195; 8196; 8197; 8198; 8199; 8200; 8201; 8202; 8232; 8233; 8239; 8287; 12288].

Definition isspace (c : char) : bool := existsb (Z.eqb c) whitespace.

(** [str.lower] on a text whose code points are all below U+0100,
    where it works character by character: A-Z, and the capitals
    U+00C0-U+00DE other than the multiplication sign U+00D7, move up
    by 32.  Code points from U+0100 on are left as they are, which
    is not what [str.lower] does with all of them: use on Latin-1
    texts only. *)
Definition lower_char (c : char) : char :=
  if in_range c (65, 90) || (in_range c (192, 222) && negb (c =? 215))
  then c + 32 else c.

Definition lower_latin1 (s : str) : str := List.map lower_char s.

End Unicode.

(** ** The analyzer *)

Record CryptoAnalyzer : Type := mkCryptoAnalyzer {
  encrypted : str;
  clean_text : str
}.

Section Analyzer.
(** [c.isalpha()] for a character [c]. *)
Variable isalpha : char -> bool.
(** The white space that [str.split()] cuts at. *)
Variable isspace : char -> bool.
(** [s.lower()]. *)
Variable lower : str -> str.

(** [''.join(c for c in s if c.isalpha())] *)
Definition letters (s : str) : str := filter isalpha s.

(** [s.split()]: the maximal runs of non-blank characters. *)
Fixpoint split_from (word : str) (s : str) : list str :=
  match s with
  | [] => match word with [] => [] | _ => [rev word] end
  | c :: s' =>
      if isspace c
      then match word with
           | [] => split_from [] s'
           | _ => rev word :: split_from [] s'
           end
      else split_from (c :: word) s'
  end.

Definition split (s : str) : list str := split_from [] s.

Definition __init__ (encrypted_text : str) : CryptoAnalyzer :=
  let encrypted := lower encrypted_text in
  mkCryptoAnalyzer encrypted (letters encrypted).

Definition caesar_char (shift : Z) (c : char) : char :=
  if isalpha c then
    let base := ord (cp "a") in
    let shifted := (ord c - base - shift) mod 26 in
    chr (base + shifted)
  else c.

Definition caesar_decrypt (text : str) (shift : Z) : str :=
  List.map (caesar_char shift) text.

(** [key.get(c, c)] for each character, joined. *)
Definition monoalpha_decrypt (text : str) (key : Dict.t str) : str :=
  flat_map (fun c => Dict.get key c [c]) text.

Definition chi_term (freq_count : Dict.t Z) (n : Z) (chi2 : Q)
    (letter : char) : Q :=
  let observed := Dict.get freq_count letter 0 in
  let expected := (Dict.get FR_FREQUENCIES letter 0 / 100 * inject_Z n)%Q in
  if Q_ltb 0 expected
  then (chi2 + (inject_Z observed - expected) ^ 2 / expected)%Q
  else chi2.

Definition chi_squared_score (text : str) : float :=
  let text_clean := letters text in
  match text_clean with
  | [] => Inf
  | _ :: _ =>
      let freq_count := Counter text_clean in
      Fin (fold_left (chi_term freq_count (len text_clean))
             ascii_lowercase 0%Q)
  end.

Definition is_match (w : str) : bool :=
  in_words w FR_COMMON_WORDS && (2 <? len w).

Definition word_score (text : str) : Q :=
  let words := split (lower text) in
  let words_clean := List.map letters words in
  match words_clean with
  | [] => 0%Q
  | _ :: _ =>
      let matches := len (filter is_match words_clean) in
      (inject_Z matches / inject_Z (len words_clean))%Q
  end.

Definition combined_score (text : str) : float :=
  let chi2 := chi_squared_score text in
  let word_bonus := (word_score text * 50)%Q in
  float_sub chi2 word_bonus.

(** [range(n)] *)
Definition range (n : nat) : list Z := List.map Z.of_nat (seq 0 n).

Definition candidate (self : CryptoAnalyzer) (shift : Z)
    : Z * str * float :=
  let decrypted := caesar_decrypt (encrypted self) shift in
  let score := combined_score decrypted in
  (shift, decrypted, score).

Definition caesar_results (self : CryptoAnalyzer)
    : list (Z * str * float) :=
  List.map (candidate self) (range 26).

Definition break_caesar (self : CryptoAnalyzer)
    : option (Z * str * float) :=
  py_min float_ltb snd (caesar_results self).

Definition sorted_encrypted (self : CryptoAnalyzer) : list (char * Z) :=
  sorted_reverse Z.ltb snd (Dict.items (Counter (clean_text self))).

Definition sorted_french : list (char * Q) :=
  sorted_reverse Q_ltb snd (Dict.items FR_FREQUENCIES).

(** The loop [for (enc_char, _), (fr_char, _) in zip(...)]. *)
Definition frequency_key (self : CryptoAnalyzer) : Dict.t str :=
  fold_left (fun key p => Dict.set key (fst (fst p)) [fst (snd p)])
    (combine (sorted_encrypted self) sorted_french) [].

Definition break_monoalpha_simple (self : CryptoAnalyzer) : str * float :=
  let key := frequency_key self in
  let decrypted := monoalpha_decrypt (encrypted self) key in
  let score := combined_score decrypted in
  (decrypted, score).

End Analyzer.

(** * Properties *)

Section Transforms.
Variable isalpha : char -> bool.

Lemma caesar_char_alpha (shift : Z) (c : char) :
  isalpha c = true ->
  caesar_char isalpha shift c = 97 + (c - 97 - shift) mod 26.
Proof. intros H. unfold caesar_char. rewrite H. reflexivity. Qed.

Lemma caesar_char_other (shift : Z) (c : char) :
  isalpha c = false -> caesar_char isalpha shift c = c.
Proof. intros H. unfold caesar_char. rewrite H. reflexivity. Qed.

Lemma caesar_char_mod (shift : Z) (c : char) :
  caesar_char isalpha shift c = caesar_char isalpha (shift mod 26) c.
Proof.
  unfold caesar_char. destruct (isalpha c); [|reflexivity].
  cbv zeta. unfold ord, chr. f_equal.
  rewrite (Zminus_mod (c - cp "a") shift), (Zminus_mod (c - cp "a") (shift mod 26)).
  rewrite Z.mod_mod by lia. reflexivity.
Qed.

Lemma caesar_decrypt_length (text : str) (shift : Z) :
  List.length (caesar_decrypt isalpha text shift) = List.length text.
Proof. unfold caesar_decrypt. apply length_map. Qed.

Lemma caesar_decrypt_nth (text : str) (shift : Z) (i : nat) (c : char) :
  nth_error text i = Some c ->
  nth_error (caesar_decrypt isalpha text shift) i
  = Some (caesar_char isalpha shift c).
Proof.
  intros H. unfold caesar_decrypt. rewrite nth_error_map, H. reflexivity.
Qed.

Lemma monoalpha_decrypt_length (text : str) (key : Dict.t str) :
  Forall (fun kv => List.length (snd kv) = 1%nat) key ->
  List.length (monoalpha_decrypt text key) = List.length text.
Proof.
  intros Hkey. unfold monoalpha_decrypt.
  induction text as [|c text IH]; [reflexivity|].
  cbn [flat_map]. rewrite length_app, IH. cbn [List.length].
  assert (Hc : List.length (Dict.get key c [c]) = 1%nat).
  { clear IH. induction Hkey as [|[k v] key Hv _ IHk]; [reflexivity|].
    cbn [Dict.get]. destruct (char_eqb k c); [exact Hv | exact IHk]. }
  rewrite Hc. reflexivity.
Qed.

(** C6: a Caesar decryption has the length of its input, for every
    integer shift, and so has a substitution decryption under a key
    whose values are single characters. *)
Theorem decrypt_preserves_length (text : str) (s : Z) (key : Dict.t str) :
  Forall (fun kv => List.length (snd kv) = 1%nat) key ->
  len (caesar_decrypt isalpha text s) = len text /\
  len (monoalpha_decrypt text key) = len text.
Proof.
  intros Hkey. unfold len. split; f_equal.
  - apply caesar_decrypt_length.
  - apply monoalpha_decrypt_length, Hkey.
Qed.

(** C7: shifts that differ by 26 decrypt alike; every integer shift is
    accepted and acts as its residue modulo 26. *)
Theorem caesar_decrypt_shift_mod_26 (text : str) (s : Z) :
  caesar_decrypt isalpha text s = caesar_decrypt isalpha text (s + 26) /\
  caesar_decrypt isalpha text s = caesar_decrypt isalpha text (s - 26) /\
  caesar_decrypt isalpha text s = caesar_decrypt isalpha text (s mod 26) /\
  0 <= s mod 26 < 26.
Proof.
  assert (E : forall a b, a mod 26 = b mod 26 ->
              caesar_decrypt isalpha text a = caesar_decrypt isalpha text b).
  { intros a b Hab. unfold caesar_decrypt. apply map_ext. intros c.
    rewrite (caesar_char_mod a), (caesar_char_mod b), Hab. reflexivity. }
  repeat split.
  - apply E. replace (s + 26) with (s + 1 * 26) by lia.
    rewrite Z.mod_add by lia. reflexivity.
  - apply E. replace (s - 26) with (s + (-1) * 26) by lia.
    rewrite Z.mod_add by lia. reflexivity.
  - apply E. rewrite Z.mod_mod by lia. reflexivity.
  - apply Z.mod_pos_bound; lia.
  - apply Z.mod_pos_bound; lia.
Qed.

(** C10: at a position holding an alphabetic character [c] the output
    holds [chr(ord('a') + (ord(c) - ord('a') - shift) % 26)], a letter
    of a-z; for an upper-case [c] this is never the shifted upper-case
    letter, it is the lower-case letter six places before the shifted
    one. *)
Theorem caesar_decrypt_alphabetic (text : str) (shift : Z) (i : nat) (c : char) :
  nth_error text i = Some c ->
  isalpha c = true ->
  let out := chr (ord (cp "a") + (ord c - ord (cp "a") - shift) mod 26) in
  nth_error (caesar_decrypt isalpha text shift) i = Some out /\
  cp "a" <= out <= cp "z" /\
  (cp "A" <= c <= cp "Z" ->
   out <> chr (ord (cp "A") + (ord c - ord (cp "A") - shift) mod 26) /\
   out = chr (ord (cp "a") + (ord c - ord (cp "A") - shift - 6) mod 26)).
Proof.
  intros Hi Hc out. subst out. unfold ord, chr.
  change (cp "a") with 97. change (cp "z") with 122.
  change (cp "A") with 65. change (cp "Z") with 90.
  pose proof (Z.mod_pos_bound (c - 97 - shift) 26 ltac:(lia)) as Hb.
  split; [|split].
  - rewrite (caesar_decrypt_nth _ _ _ _ Hi), caesar_char_alpha by exact Hc.
    reflexivity.
  - lia.
  - intros _.
    pose proof (Z.mod_pos_bound (c - 65 - shift) 26 ltac:(lia)) as Hu.
    split; [lia|].
    f_equal. replace (c - 65 - shift - 6) with (c - 97 - shift + 1 * 26) by lia.
    rewrite Z.mod_add by lia. reflexivity.
Qed.

(** C1, as amended: a character that fails the alphabetic predicate is
    copied to the same position by [caesar_decrypt] and does not occur
    in the letters-only view, which is the only part of the text that
    [chi_squared_score] reads. *)
Theorem non_alphabetic_pass_through (text : str) (shift : Z) (i : nat) (c : char) :
  nth_error text i = Some c ->
  isalpha c = false ->
  nth_error (caesar_decrypt isalpha text shift) i = Some c /\
  ~ In c (letters isalpha text) /\
  chi_squared_score isalpha text
  = chi_squared_score isalpha (letters isalpha text).
Proof.
  intros Hi Hc. split; [|split].
  - rewrite (caesar_decrypt_nth _ _ _ _ Hi), caesar_char_other by exact Hc.
    reflexivity.
  - unfold letters. rewrite filter_In. intros [_ H]. congruence.
  - unfold chi_squared_score, letters.
    assert (E : filter isalpha (filter isalpha text) = filter isalpha text).
    { clear. induction text as [|x l IH]; [reflexivity|].
      cbn [filter]. destruct (isalpha x) eqn:Hx; [|exact IH].
      cbn [filter]. rewrite Hx, IH. reflexivity. }
    rewrite E. reflexivity.
Qed.

(** C3, as amended: when the letters a-z are alphabetic and every
    alphabetic character of the text is one of them, encrypting with
    any shift and decrypting with the same shift gives the text back. *)
Theorem caesar_round_trip (text : str) (s : Z) :
  (forall c, cp "a" <= c <= cp "z" -> isalpha c = true) ->
  Forall (fun c => isalpha c = true -> cp "a" <= c <= cp "z") text ->
  caesar_decrypt isalpha (caesar_decrypt isalpha text (- s)) s = text.
Proof.
  change (cp "a") with 97. change (cp "z") with 122.
  intros Haz Htext. unfold caesar_decrypt. rewrite map_map.
  rewrite <- (map_id text) at 2. apply map_ext_in. intros c Hin.
  rewrite Forall_forall in Htext. specialize (Htext c Hin).
  destruct (isalpha c) eqn:Hc.
  - specialize (Htext eq_refl).
    rewrite (caesar_char_alpha (- s) c Hc).
    pose proof (Z.mod_pos_bound (c - 97 - - s) 26 ltac:(lia)) as Hb.
    rewrite caesar_char_alpha by (apply Haz; lia).
    replace (97 + (c - 97 - - s) mod 26 - 97 - s)
      with ((c - 97 - - s) mod 26 - s) by lia.
    rewrite Zminus_mod, Z.mod_mod, <- Zminus_mod by lia.
    replace (c - 97 - - s - s) with (c - 97) by lia.
    rewrite Z.mod_small by lia. lia.
  - rewrite (caesar_char_other (- s) c Hc). apply caesar_char_other, Hc.
Qed.

End Transforms.

Section Scorer.
Variable isalpha : char -> bool.
Variable isspace : char -> bool.
Variable lower : str -> str.

Lemma Q_ltb_lt (x y : Q) : Q_ltb x y = true -> (x < y)%Q.
Proof.
  unfold Q_ltb. intros H. apply Qlt_alt.
  destruct (x ?= y)%Q; congruence.
Qed.

Lemma chi_term_nonneg (freq_count : Dict.t Z) (n : Z) (chi2 : Q) (letter : char) :
  (0 <= chi2)%Q -> (0 <= chi_term freq_count n chi2 letter)%Q.
Proof.
  intros H. unfold chi_term. cbv zeta.
  set (expected := (Dict.get FR_FREQUENCIES letter 0 / 100 * inject_Z n)%Q).
  set (observed := Dict.get freq_count letter 0).
  destruct (Q_ltb 0 expected) eqn:He; [|exact H].
  apply Q_ltb_lt in He.
  rewrite <- (Qplus_0_r 0). apply Qplus_le_compat; [exact H|].
  apply Qle_shift_div_l; [exact He|].
  rewrite Qmult_0_l. apply Qsqr_nonneg.
Qed.

Lemma chi_sum_nonneg (freq_count : Dict.t Z) (n : Z) (alphabet : str) (chi2 : Q) :
  (0 <= chi2)%Q ->
  (0 <= fold_left (chi_term freq_count n) alphabet chi2)%Q.
Proof.
  revert chi2. induction alphabet as [|letter alphabet IH]; intros chi2 H.
  - exact H.
  - cbn [fold_left]. apply IH, chi_term_nonneg, H.
Qed.

(** C4: [chi_squared_score] returns a value on every text: infinity
    exactly when the letters-only view is empty, and a finite value that
    is at least 0 otherwise. *)
Theorem chi_squared_score_total (text : str) :
  (chi_squared_score isalpha text = Inf <-> letters isalpha text = []) /\
  match letters isalpha text with
  | [] => chi_squared_score isalpha text = Inf
  | _ :: _ =>
      exists q : Q, chi_squared_score isalpha text = Fin q /\ (0 <= q)%Q
  end.
Proof.
  unfold chi_squared_score.
  destruct (letters isalpha text) as [|c text_clean] eqn:E.
  - split; [split; reflexivity | reflexivity].
  - split.
    + split; intros H; discriminate H.
    + eexists. split; [reflexivity|].
      apply chi_sum_nonneg. apply Qle_refl.
Qed.

Lemma str_eqb_eq (a b : str) : str_eqb a b = true <-> a = b.
Proof.
  revert b. induction a as [|x a IH]; intros [|y b]; cbn [str_eqb];
    try (split; intros H; [discriminate H | discriminate H]).
  - split; reflexivity.
  - unfold char_eqb. rewrite andb_true_iff, Z.eqb_eq, IH.
    split; [intros [-> ->]; reflexivity | intros H; inversion H; auto].
Qed.

Lemma in_words_In (w : str) (ws : list str) :
  in_words w ws = true <-> In w ws.
Proof.
  unfold in_words. rewrite existsb_exists. split.
  - intros [x [Hin Hx]]. apply str_eqb_eq in Hx. subst x. exact Hin.
  - intros Hin. exists w. split; [exact Hin | apply str_eqb_eq; reflexivity].
Qed.

Lemma is_match_spec (w : str) :
  is_match w = true <-> In w FR_COMMON_WORDS /\ 2 < len w.
Proof.
  unfold is_match. rewrite andb_true_iff, in_words_In, Z.ltb_lt. reflexivity.
Qed.

Lemma filter_length_le {A : Type} (f : A -> bool) (l : list A) :
  len (filter f l) <= len l.
Proof.
  unfold len. apply inj_le. induction l as [|x l IH]; [apply le_n|].
  cbn [filter]. destruct (f x); cbn [List.length]; lia.
Qed.

Lemma ratio_bounds (m n : Z) :
  0 <= m <= n -> 0 < n -> (0 <= inject_Z m / inject_Z n <= 1)%Q.
Proof.
  intros Hm Hn.
  assert (Hn' : (0 < inject_Z n)%Q).
  { change 0%Q with (inject_Z 0). rewrite <- Zlt_Qlt. exact Hn. }
  split.
  - apply Qle_shift_div_l; [exact Hn'|]. rewrite Qmult_0_l.
    change 0%Q with (inject_Z 0). rewrite <- Zle_Qle. lia.
  - apply Qle_shift_div_r; [exact Hn'|]. rewrite Qmult_1_l.
    rewrite <- Zle_Qle. lia.
Qed.

(** C8: [word_score] lies between 0 and 1; it is 0 when the lower-cased
    text splits into no token, and otherwise the share of the tokens
    that, once reduced to their alphabetic characters, are words of
    [FR_COMMON_WORDS] longer than two characters; these are the
    nineteen words listed. *)
Theorem word_score_bounds (text : str) :
  let tokens := split isspace (lower text) in
  let cleaned := List.map (letters isalpha) tokens in
  (0 <= word_score isalpha isspace lower text <= 1)%Q /\
  match tokens with
  | [] => word_score isalpha isspace lower text = 0%Q
  | _ :: _ =>
      word_score isalpha isspace lower text
      = (inject_Z (len (filter is_match cleaned)) / inject_Z (len tokens))%Q
  end /\
  (forall w : str, is_match w = true <-> In w FR_COMMON_WORDS /\ 2 < len w) /\
  (forall w : str, is_match w = true <->
     In w (List.map lit
             ["une"; "les"; "des"; "par"; "pour"; "dans"; "avec"; "sur";
              "que"; "qui"; "est"; "elle"; "vous"; "nous"; "pas"; "plus";
              "bien"; "peu"; "fait"]%string)).
Proof.
  intros tokens cleaned. unfold word_score. fold tokens. fold cleaned.
  split; [|split; [|split]].
  - destruct tokens as [|w ws] eqn:E.
    + cbn. split; discriminate.
    + subst cleaned. cbn [List.map].
      set (l := letters isalpha w :: List.map (letters isalpha) ws).
      apply ratio_bounds.
      * split; [unfold len; lia | apply filter_length_le].
      * unfold len, l. cbn [List.length]. lia.
  - destruct tokens as [|w ws] eqn:E.
    + reflexivity.
    + subst cleaned. cbn [List.map]. do 2 f_equal. unfold len.
      cbn [List.length]. rewrite length_map. reflexivity.
  - exact is_match_spec.
  - intros w. rewrite is_match_spec. split.
    + intros [Hin Hlen]. unfold FR_COMMON_WORDS in Hin. cbn [In] in Hin.
      cbn [List.map In].
      repeat (destruct Hin as [Hin|Hin];
              [subst w; first [ exfalso; vm_compute in Hlen; discriminate Hlen
                              | tauto ] |]).
      contradiction.
    + cbn [List.map In]. intros Hin.
      repeat (destruct Hin as [Hin|Hin];
              [subst w; split; [vm_compute; tauto | reflexivity] |]).
      contradiction.
Qed.

End Scorer.

(** ** The order on scores *)

Lemma Qcompare_ltb_true (x y : Q) :
  match (x ?= y)%Q with Lt => true | _ => false end = true <-> (x < y)%Q.
Proof.
  rewrite Qlt_alt. destruct (x ?= y)%Q; split; congruence.
Qed.

Lemma Qcompare_ltb_false (x y : Q) :
  match (x ?= y)%Q with Lt => true | _ => false end = false <-> (y <= x)%Q.
Proof.
  rewrite Qge_alt. destruct (x ?= y)%Q; split; congruence.
Qed.

Lemma float_le_refl (a : float) : float_le a a.
Proof.
  unfold float_le. destruct a as [x|]; cbn; [|reflexivity].
  apply Qcompare_ltb_false, Qle_refl.
Qed.

Lemma float_lt_le (a b : float) : float_ltb a b = true -> float_le a b.
Proof.
  unfold float_le. destruct a as [x|], b as [y|]; cbn; try congruence.
  rewrite Qcompare_ltb_true, Qcompare_ltb_false. apply Qlt_le_weak.
Qed.

Lemma float_le_lt_trans (a b c : float) :
  float_le a b -> float_ltb b c = true -> float_ltb a c = true.
Proof.
  unfold float_le. destruct a as [x|], b as [y|], c as [z|]; cbn;
    try congruence.
  rewrite Qcompare_ltb_false, !Qcompare_ltb_true. apply Qle_lt_trans.
Qed.

Lemma float_lt_le_trans (a b c : float) :
  float_ltb a b = true -> float_le b c -> float_ltb a c = true.
Proof.
  unfold float_le. destruct a as [x|], b as [y|], c as [z|]; cbn;
    try congruence.
  rewrite Qcompare_ltb_false, !Qcompare_ltb_true. apply Qlt_le_trans.
Qed.

Lemma float_le_trans (a b c : float) :
  float_le a b -> float_le b c -> float_le a c.
Proof.
  unfold float_le. destruct a as [x|], b as [y|], c as [z|]; cbn;
    try congruence.
  rewrite !Qcompare_ltb_false. apply Qle_trans.
Qed.

(** ** [min] with a score as key *)

Section Minimum.
Context {A : Type}.
Variable key : A -> float.

(** The result of the scan is the first element of least key: nothing
    is below it, and everything before it is strictly above it. *)
Lemma fold_min_first (l : list A) (x : A) :
  let m := fold_left (min_step float_ltb key) l x in
  (forall y, In y (x :: l) -> float_le (key m) (key y)) /\
  exists l1 l2, x :: l = l1 ++ m :: l2 /\
                forall y, In y l1 -> float_ltb (key m) (key y) = true.
Proof.
  revert x. induction l as [|y l IH]; intros x; cbn zeta.
  - cbn [fold_left]. split.
    + intros z [<-|[]]. apply float_le_refl.
    + exists [], []. split; [reflexivity | intros z []].
  - cbn [fold_left].
    destruct (float_ltb (key y) (key x)) eqn:Hyx.
    + replace (min_step float_ltb key x y) with y
        by (unfold min_step; rewrite Hyx; reflexivity).
      destruct (IH y) as [Hmin [l1 [l2 [Hsplit Hbefore]]]].
      set (m := fold_left (min_step float_ltb key) l y) in *.
      assert (Hmx : float_ltb (key m) (key x) = true).
      { apply float_le_lt_trans with (b := key y); [|exact Hyx].
        apply Hmin. left. reflexivity. }
      split.
      * intros z [<-|Hz]; [apply float_lt_le, Hmx | apply Hmin, Hz].
      * exists (x :: l1), l2. split; [cbn; rewrite Hsplit; reflexivity|].
        intros z [<-|Hz]; [exact Hmx | apply Hbefore, Hz].
    + replace (min_step float_ltb key x y) with x
        by (unfold min_step; rewrite Hyx; reflexivity).
      destruct (IH x) as [Hmin [l1 [l2 [Hsplit Hbefore]]]].
      set (m := fold_left (min_step float_ltb key) l x) in *.
      assert (Hxy : float_le (key x) (key y)) by exact Hyx.
      split.
      * intros z [<-|[<-|Hz]].
        -- apply Hmin. left. reflexivity.
        -- apply float_le_trans with (b := key x); [|exact Hxy].
           apply Hmin. left. reflexivity.
        -- apply Hmin. right. exact Hz.
      * destruct l1 as [|x' l1].
        -- cbn [app] in Hsplit. injection Hsplit as Hm Hl.
           exists [], (y :: l2). split; [cbn; rewrite Hm, Hl; reflexivity|].
           intros z [].
        -- cbn [app] in Hsplit. injection Hsplit as Hx Hl. subst x'.
           exists (x :: y :: l1), l2.
           split; [cbn; rewrite Hl; reflexivity|].
           intros z [<-|[<-|Hz]].
           ++ apply Hbefore. left. reflexivity.
           ++ apply float_lt_le_trans with (b := key x); [|exact Hxy].
              apply Hbefore. left. reflexivity.
           ++ apply Hbefore. right. exact Hz.
Qed.

End Minimum.

Lemma range_nth (n i : nat) :
  (i < n)%nat -> nth_error (range n) i = Some (Z.of_nat i).
Proof.
  intros H. unfold range.
  rewrite nth_error_map, nth_error_seq.
  apply Nat.ltb_lt in H. rewrite H. reflexivity.
Qed.

Lemma range_In (n : nat) (t : Z) : In t (range n) <-> 0 <= t < Z.of_nat n.
Proof.
  unfold range. rewrite in_map_iff. split.
  - intros [k [<- Hk]]. apply in_seq in Hk. lia.
  - intros H. exists (Z.to_nat t). split; [lia | apply in_seq; lia].
Qed.

(** In a split of [range n] the pivot is the length of the part before
    it, which holds every smaller number. *)
Lemma range_split (n : nat) (r1 r2 : list Z) (s : Z) :
  range n = r1 ++ s :: r2 ->
  0 <= s < Z.of_nat n /\ forall t, 0 <= t < s -> In t r1.
Proof.
  intros H.
  assert (Hlen : (List.length r1 < n)%nat).
  { assert (E : List.length (range n) = n)
      by (unfold range; rewrite length_map, length_seq; reflexivity).
    rewrite H, length_app in E. cbn [List.length] in E. lia. }
  assert (Hs : s = Z.of_nat (List.length r1)).
  { pose proof (range_nth n _ Hlen) as E. rewrite H in E.
    rewrite nth_error_app2, Nat.sub_diag in E by lia.
    cbn in E. congruence. }
  split; [lia|].
  intros t Ht.
  assert (Hk : (Z.to_nat t < List.length r1)%nat) by lia.
  pose proof (range_nth n (Z.to_nat t) ltac:(lia)) as E.
  rewrite H, nth_error_app1 in E by exact Hk.
  apply nth_error_In in E. rewrite Z2Nat.id in E by lia. exact E.
Qed.

Section CaesarSearch.
Variable isalpha : char -> bool.
Variable isspace : char -> bool.
Variable lower : str -> str.

Abbreviation score text := (combined_score isalpha isspace lower text).
Abbreviation results := (caesar_results isalpha isspace lower).
Abbreviation guess := (candidate isalpha isspace lower).

Lemma break_caesar_first_minimum (self : CryptoAnalyzer) :
  exists shift : Z,
    0 <= shift < 26 /\
    break_caesar isalpha isspace lower self = Some (guess self shift) /\
    (forall t, 0 <= t < 26 ->
       float_le (snd (guess self shift)) (snd (guess self t))) /\
    (forall t, 0 <= t < shift ->
       float_ltb (snd (guess self shift)) (snd (guess self t)) = true).
Proof.
  unfold break_caesar, caesar_results.
  change (range 26) with (0 :: List.map Z.of_nat (seq 1 25)).
  cbn [List.map py_min].
  set (rest := List.map Z.of_nat (seq 1 25)).
  pose proof (fold_min_first snd (List.map (guess self) rest) (guess self 0))
    as [Hmin [l1 [l2 [Hsplit Hbefore]]]].
  set (m := fold_left (min_step float_ltb snd) (List.map (guess self) rest)
              (guess self 0)) in *.
  change (guess self 0 :: List.map (guess self) rest)
    with (List.map (guess self) (range 26)) in Hsplit, Hmin.
  apply map_eq_app in Hsplit as [r1 [r2' [Hr [Hl1 Hr2]]]].
  apply map_eq_cons in Hr2 as [s [r2 [Hr2 [Hm _]]]]. subst r2' l1.
  apply range_split in Hr as [Hs Hsmall].
  exists s. split; [exact Hs|]. rewrite Hm.
  split; [reflexivity|]. split.
  - intros t Ht. apply Hmin, in_map, range_In. exact Ht.
  - intros t Ht. apply Hbefore, in_map, Hsmall. exact Ht.
Qed.

Lemma caesar_results_empty (clean : str) :
  Forall (fun r => snd r = Inf) (results (mkCryptoAnalyzer [] clean)).
Proof.
  unfold caesar_results. apply Forall_forall. intros r Hr.
  apply in_map_iff in Hr as [t [<- _]]. reflexivity.
Qed.

(** C2: [break_caesar] scores the shifts 0, 1, ..., 25 in this order
    and returns the candidate of least score, the one of lowest shift
    among those of least score; on the empty ciphertext every candidate
    scores infinity and the result is shift 0 with score infinity. *)
Theorem break_caesar_minimum (self : CryptoAnalyzer) :
  List.map (fun r => fst (fst r)) (results self)
  = [0; 1; 2; 3; 4; 5; 6; 7; 8; 9; 10; 11; 12; 13; 14; 15; 16; 17; 18; 19;
     20; 21; 22; 23; 24; 25] /\
  (exists shift : Z,
     0 <= shift < 26 /\
     break_caesar isalpha isspace lower self
     = Some (shift, caesar_decrypt isalpha (encrypted self) shift,
             score (caesar_decrypt isalpha (encrypted self) shift)) /\
     (forall t, 0 <= t < 26 ->
        float_le (score (caesar_decrypt isalpha (encrypted self) shift))
                 (score (caesar_decrypt isalpha (encrypted self) t))) /\
     (forall t, 0 <= t < shift ->
        float_ltb (score (caesar_decrypt isalpha (encrypted self) shift))
                  (score (caesar_decrypt isalpha (encrypted self) t))
        = true)) /\
  (forall clean : str,
     break_caesar isalpha isspace lower (mkCryptoAnalyzer [] clean)
     = Some (0, [], Inf) /\
     Forall (fun r => snd r = Inf) (results (mkCryptoAnalyzer [] clean)) /\
     List.length (results (mkCryptoAnalyzer [] clean)) = 26%nat).
Proof.
  split; [|split].
  - unfold caesar_results. rewrite map_map. reflexivity.
  - exact (break_caesar_first_minimum self).
  - intros clean. split; [reflexivity|].
    split; [apply caesar_results_empty | reflexivity].
Qed.

(** C9: the triple returned by [break_caesar] is a function of the
    ciphertext alone: two analyzers holding the same ciphertext return
    one and the same triple. *)
Theorem break_caesar_deterministic (a b : CryptoAnalyzer) :
  encrypted a = encrypted b ->
  exists r : Z * str * float,
    break_caesar isalpha isspace lower a = Some r /\
    break_caesar isalpha isspace lower b = Some r.
Proof.
  intros E.
  destruct (break_caesar_first_minimum a) as [shift [_ [Ha _]]].
  exists (guess a shift). split; [exact Ha|].
  rewrite <- Ha. unfold break_caesar, caesar_results, candidate.
  rewrite E. reflexivity.
Qed.

End CaesarSearch.

(** ** Dictionaries and counters *)

Lemma dict_get_set {V : Type} (d : Dict.t V) (k k' : char) (v dflt : V) :
  Dict.get (Dict.set d k v) k' dflt
  = if char_eqb k k' then v else Dict.get d k' dflt.
Proof.
  unfold char_eqb. induction d as [|[k0 v0] d IH]; cbn [Dict.set Dict.get].
  - unfold char_eqb. reflexivity.
  - unfold char_eqb in *. destruct (Z.eqb_spec k0 k) as [->|Hk0].
    + cbn [Dict.get]. unfold char_eqb. destruct (k =? k'); reflexivity.
    + cbn [Dict.get]. unfold char_eqb. rewrite IH.
      destruct (Z.eqb_spec k0 k') as [->|Hk0']; [|reflexivity].
      destruct (Z.eqb_spec k k'); [congruence | reflexivity].
Qed.

Lemma dict_mem_keys {V : Type} (d : Dict.t V) (k : char) :
  Dict.mem d k = true <-> In k (Dict.keys d).
Proof.
  unfold Dict.keys, char_eqb.
  induction d as [|[k0 v0] d IH]; cbn [Dict.mem List.map In fst].
  - split; [discriminate | contradiction].
  - unfold char_eqb. rewrite orb_true_iff, Z.eqb_eq, IH. reflexivity.
Qed.

Lemma dict_get_absent {V : Type} (d : Dict.t V) (k : char) (dflt : V) :
  Dict.mem d k = false -> Dict.get d k dflt = dflt.
Proof.
  induction d as [|[k0 v0] d IH]; cbn [Dict.mem Dict.get]; [reflexivity|].
  intros H. apply orb_false_iff in H as [H1 H2]. rewrite H1. apply IH, H2.
Qed.

Lemma dict_set_present {V : Type} (d : Dict.t V) (k : char) (v : V) :
  In k (Dict.keys d) -> Dict.keys (Dict.set d k v) = Dict.keys d.
Proof.
  unfold Dict.keys.
  induction d as [|[k0 v0] d IH]; cbn [Dict.set List.map In fst];
    [contradiction|].
  intros H. unfold char_eqb. destruct (Z.eqb_spec k0 k) as [->|Hk0].
  - reflexivity.
  - cbn [List.map fst]. f_equal. apply IH. destruct H; [contradiction|assumption].
Qed.

Lemma dict_set_absent {V : Type} (d : Dict.t V) (k : char) (v : V) :
  ~ In k (Dict.keys d) -> Dict.set d k v = d ++ [(k, v)].
Proof.
  unfold Dict.keys.
  induction d as [|[k0 v0] d IH]; cbn [Dict.set List.map In fst app];
    [reflexivity|].
  intros H. unfold char_eqb. destruct (Z.eqb_spec k0 k) as [->|Hk0].
  - exfalso. apply H. left. reflexivity.
  - f_equal. apply IH. intros Hin. apply H. right. exact Hin.
Qed.

Lemma count_step_keys (d : Dict.t Z) (c : char) :
  NoDup (Dict.keys d) ->
  NoDup (Dict.keys (count_step d c)) /\
  forall k, In k (Dict.keys (count_step d c)) <-> In k (Dict.keys d) \/ k = c.
Proof.
  intros Hd. unfold count_step.
  destruct (in_dec Z.eq_dec c (Dict.keys d)) as [Hin|Hout].
  - rewrite dict_set_present by exact Hin. split; [exact Hd|].
    intros k. split; [tauto | intros [H| ->]; assumption].
  - rewrite dict_set_absent by exact Hout. unfold Dict.keys in *.
    rewrite map_app. cbn [List.map fst]. split.
    + apply NoDup_app; [exact Hd | repeat constructor; intros [] |].
      intros a Ha [<-|[]]. contradiction.
    + intros k. rewrite in_app_iff. cbn [In]. intuition congruence.
Qed.

Lemma counter_fold (s : str) (d : Dict.t Z) :
  NoDup (Dict.keys d) ->
  let d' := fold_left count_step s d in
  NoDup (Dict.keys d') /\
  (forall k, In k (Dict.keys d') <-> In k (Dict.keys d) \/ In k s) /\
  (forall k, Dict.get d' k 0
             = Dict.get d k 0 + Z.of_nat (count_occ Z.eq_dec s k)).
Proof.
  revert d. induction s as [|c s IH]; intros d Hd; cbn zeta.
  - cbn [fold_left count_occ In]. split; [exact Hd|]. split.
    + intros k. tauto.
    + intros k. lia.
  - cbn [fold_left].
    destruct (count_step_keys d c Hd) as [Hd1 Hkeys1].
    destruct (IH _ Hd1) as [Hnd [Hkeys Hget]].
    split; [exact Hnd|]. split.
    + intros k. rewrite Hkeys, Hkeys1. cbn [In]. intuition congruence.
    + intros k. rewrite Hget. unfold count_step at 1.
      rewrite dict_get_set. unfold char_eqb. cbn [count_occ].
      destruct (Z.eqb_spec c k) as [->|Hck].
      * destruct (Z.eq_dec k k) as [_|Hkk]; [lia | contradiction].
      * destruct (Z.eq_dec c k) as [Hck'|_]; [contradiction | lia].
Qed.

(** A counter has one entry per distinct character of the text, which
    holds the number of its occurrences. *)
Lemma Counter_spec (s : str) :
  NoDup (Dict.keys (Counter s)) /\
  (forall k, In k (Dict.keys (Counter s)) <-> In k s) /\
  (forall k, Dict.get (Counter s) k 0 = Z.of_nat (count_occ Z.eq_dec s k)) /\
  (forall k n, In (k, n) (Dict.items (Counter s)) <->
               In k s /\ n = Z.of_nat (count_occ Z.eq_dec s k)) /\
  List.length (Counter s) = List.length (nodup Z.eq_dec s).
Proof.
  destruct (counter_fold s [] (NoDup_nil _)) as [Hnd [Hkeys Hget0]].
  change (fold_left count_step s []) with (Counter s) in *.
  assert (Hget : forall k, Dict.get (Counter s) k 0
                           = Z.of_nat (count_occ Z.eq_dec s k)).
  { intros k. rewrite Hget0. reflexivity. }
  assert (Hkeys' : forall k, In k (Dict.keys (Counter s)) <-> In k s).
  { intros k. rewrite Hkeys. cbn. tauto. }
  assert (Hitem : forall (d : Dict.t Z) k n, NoDup (Dict.keys d) ->
            In (k, n) d -> Dict.get d k 0 = n).
  { clear. intros d k n. unfold Dict.keys.
    induction d as [|[k0 v0] d IH]; cbn [In List.map fst Dict.get];
      [contradiction|].
    intros Hnd [H|H].
    - injection H as -> ->. unfold char_eqb. rewrite Z.eqb_refl. reflexivity.
    - inversion Hnd as [|? ? Hnotin Hnd']; subst.
      unfold char_eqb. destruct (Z.eqb_spec k0 k) as [->|_].
      + exfalso. apply Hnotin. apply (in_map fst) in H. exact H.
      + apply IH; assumption. }
  split; [exact Hnd|]. split; [exact Hkeys'|]. split; [exact Hget|]. split.
  - intros k n. unfold Dict.items. split.
    + intros H. split.
      * apply Hkeys'. apply (in_map fst) in H. exact H.
      * rewrite <- Hget. symmetry. apply Hitem; assumption.
    + intros [Hk ->]. apply Hkeys' in Hk. unfold Dict.keys in Hk.
      apply in_map_iff in Hk as [[k' n'] [Hfst Hin]]. cbn in Hfst. subst k'.
      rewrite <- Hget, (Hitem _ _ _ Hnd Hin). exact Hin.
  - rewrite <- (length_map fst (Counter s)).
    apply Permutation_length, NoDup_Permutation;
      [exact Hnd | apply NoDup_nodup |].
    intros k. rewrite nodup_In. apply Hkeys'.
Qed.

Lemma dict_get_in {V : Type} (d : Dict.t V) (k : char) (v dflt : V) :
  NoDup (Dict.keys d) -> In (k, v) d -> Dict.get d k dflt = v.
Proof.
  unfold Dict.keys.
  induction d as [|[k0 v0] d IH]; cbn [In List.map fst Dict.get];
    [contradiction|].
  intros Hnd [H|H].
  - injection H as -> ->. unfold char_eqb. rewrite Z.eqb_refl. reflexivity.
  - inversion Hnd as [|? ? Hnotin Hnd']; subst.
    unfold char_eqb. destruct (Z.eqb_spec k0 k) as [->|_].
    + exfalso. apply Hnotin. apply (in_map fst) in H. exact H.
    + apply IH; assumption.
Qed.

(** ** [sorted(..., reverse=True)] *)

Section SortedReverse.
Context {A K : Type}.
Variable ltb : K -> K -> bool.
Variable key : A -> K.
Hypothesis ltb_asym : forall a b, ltb a b = true -> ltb b a = false.
Hypothesis geb_trans :
  forall a b c, ltb a b = false -> ltb b c = false -> ltb a c = false.

Lemma insert_desc_perm (x : A) (l : list A) :
  Permutation (insert_desc ltb key x l) (x :: l).
Proof.
  induction l as [|y l IH]; cbn [insert_desc]; [reflexivity|].
  destruct (ltb (key x) (key y)); [|reflexivity].
  rewrite IH. apply perm_swap.
Qed.

Lemma sorted_reverse_perm (l : list A) :
  Permutation (sorted_reverse ltb key l) l.
Proof.
  induction l as [|x l IH]; cbn [sorted_reverse]; [reflexivity|].
  rewrite insert_desc_perm, IH. reflexivity.
Qed.

Lemma insert_desc_sorted (x : A) (l : list A) :
  StronglySorted (fun a b => ltb (key a) (key b) = false) l ->
  StronglySorted (fun a b => ltb (key a) (key b) = false)
    (insert_desc ltb key x l).
Proof.
  induction 1 as [|y l Hl IH Hy]; cbn [insert_desc].
  - repeat constructor.
  - destruct (ltb (key x) (key y)) eqn:Hxy.
    + constructor; [exact IH|].
      apply Forall_forall. intros z Hz.
      apply (Permutation_in _ (insert_desc_perm x l)) in Hz.
      destruct Hz as [<-|Hz]; [apply ltb_asym, Hxy|].
      rewrite Forall_forall in Hy. apply Hy, Hz.
    + constructor; [constructor; assumption|].
      constructor; [exact Hxy|].
      rewrite Forall_forall in Hy |- *. intros z Hz.
      apply geb_trans with (b := key y); [exact Hxy | apply Hy, Hz].
Qed.

Lemma sorted_reverse_sorted (l : list A) :
  StronglySorted (fun a b => ltb (key a) (key b) = false)
    (sorted_reverse ltb key l).
Proof.
  induction l as [|x l IH]; cbn [sorted_reverse]; [constructor|].
  apply insert_desc_sorted, IH.
Qed.

End SortedReverse.

Lemma StronglySorted_weaken {A : Type} (R S : A -> A -> Prop) (l : list A) :
  (forall a b, R a b -> S a b) -> StronglySorted R l -> StronglySorted S l.
Proof.
  intros HRS. induction 1 as [|x l Hl IH Hx]; constructor; [exact IH|].
  rewrite Forall_forall in Hx |- *. intros y Hy. apply HRS, Hx, Hy.
Qed.

Lemma sorted_encrypted_spec (self : CryptoAnalyzer) :
  Permutation (sorted_encrypted self)
    (Dict.items (Counter (clean_text self))) /\
  StronglySorted (fun a b => snd b <= snd a) (sorted_encrypted self).
Proof.
  unfold sorted_encrypted. split; [apply sorted_reverse_perm|].
  apply StronglySorted_weaken
    with (R := fun a b : char * Z => Z.ltb (snd a) (snd b) = false).
  - intros a b H. apply Z.ltb_ge, H.
  - apply sorted_reverse_sorted.
    + intros a b. rewrite Z.ltb_lt, Z.ltb_ge. lia.
    + intros a b c. rewrite !Z.ltb_ge. lia.
Qed.

Lemma sorted_french_spec :
  Permutation sorted_french (Dict.items FR_FREQUENCIES) /\
  StronglySorted (fun a b => (snd b <= snd a)%Q) sorted_french.
Proof.
  unfold sorted_french. split; [apply sorted_reverse_perm|].
  apply StronglySorted_weaken
    with (R := fun a b : char * Q => Q_ltb (snd a) (snd b) = false).
  - intros a b H. apply Qcompare_ltb_false, H.
  - apply sorted_reverse_sorted; unfold Q_ltb.
    + intros a b. rewrite Qcompare_ltb_true, Qcompare_ltb_false.
      apply Qlt_le_weak.
    + intros a b c. rewrite !Qcompare_ltb_false. intros H1 H2.
      apply Qle_trans with (y := b); assumption.
Qed.

(** ** The substitution key *)

Lemma combine_nth_error {A B : Type} (a : list A) (b : list B) (n : nat)
    (x : A) (y : B) :
  nth_error a n = Some x -> nth_error b n = Some y ->
  nth_error (combine a b) n = Some (x, y).
Proof.
  revert a b. induction n as [|n IH]; intros [|x' a] [|y' b]; cbn;
    try discriminate.
  - intros H1 H2. congruence.
  - apply IH.
Qed.

Lemma combine_keys_NoDup {A B : Type} (a : list (char * A)) (b : list B) :
  NoDup (List.map fst a) ->
  NoDup (List.map (fun p => fst (fst p)) (combine a b)).
Proof.
  revert b. induction a as [|x a IH]; intros [|y b] H; cbn; try constructor.
  - inversion H as [|? ? Hnotin _]; subst. intros Hin. apply Hnotin.
    apply in_map_iff in Hin as [[x' y'] [Hfst Hin]]. cbn in Hfst.
    apply in_combine_l in Hin. rewrite <- Hfst. apply in_map, Hin.
  - apply IH. inversion H; assumption.
Qed.

Lemma key_fold {A B : Type} (l : list ((char * A) * (char * B)))
    (d : Dict.t str) :
  NoDup (Dict.keys d ++ List.map (fun p => fst (fst p)) l) ->
  fold_left (fun key p => Dict.set key (fst (fst p)) [fst (snd p)]) l d
  = d ++ List.map (fun p => (fst (fst p), [fst (snd p)])) l.
Proof.
  revert d. induction l as [|p l IH]; intros d H; cbn [fold_left List.map].
  - rewrite app_nil_r. reflexivity.
  - cbn [List.map] in H.
    assert (Hout : ~ In (fst (fst p)) (Dict.keys d)).
    { apply NoDup_remove_2 in H. intros Hin. apply H.
      apply in_or_app. left. exact Hin. }
    rewrite dict_set_absent by exact Hout.
    rewrite IH.
    + rewrite <- app_assoc. reflexivity.
    + unfold Dict.keys in *. rewrite map_app, <- app_assoc. exact H.
Qed.

Lemma frequency_key_zip (self : CryptoAnalyzer) :
  frequency_key self
  = List.map (fun p => (fst (fst p), [fst (snd p)]))
      (combine (sorted_encrypted self) sorted_french) /\
  NoDup (Dict.keys (frequency_key self)).
Proof.
  assert (Hnd : NoDup (List.map (fun p : (char * Z) * (char * Q) =>
                                   fst (fst p))
                         (combine (sorted_encrypted self) sorted_french))).
  { apply combine_keys_NoDup.
    destruct (sorted_encrypted_spec self) as [Hperm _].
    apply (Permutation_NoDup (l := Dict.keys (Counter (clean_text self)))).
    - symmetry. apply Permutation_map, Hperm.
    - apply Counter_spec. }
  assert (E : frequency_key self
              = List.map (fun p => (fst (fst p), [fst (snd p)]))
                  (combine (sorted_encrypted self) sorted_french)).
  { unfold frequency_key. rewrite key_fold; [reflexivity | exact Hnd]. }
  split; [exact E|].
  rewrite E. unfold Dict.keys. rewrite map_map. exact Hnd.
Qed.

Lemma monoalpha_decrypt_nth (text : str) (key : Dict.t str) (i : nat)
    (c : char) :
  Forall (fun kv => List.length (snd kv) = 1%nat) key ->
  nth_error text i = Some c ->
  nth_error (monoalpha_decrypt text key) i
  = nth_error (Dict.get key c [c]) 0.
Proof.
  intros Hkey. unfold monoalpha_decrypt.
  assert (Hone : forall k, List.length (Dict.get key k [k]) = 1%nat).
  { intros k. induction Hkey as [|[k0 v0] key Hv _ IHk]; [reflexivity|].
    cbn [Dict.get]. destruct (char_eqb k0 k); [exact Hv | exact IHk]. }
  revert i. induction text as [|x text IH]; intros [|i]; cbn [nth_error];
    try discriminate.
  - intros H. injection H as ->. cbn [flat_map].
    specialize (Hone c). destruct (Dict.get key c [c]) as [|v [|? ?]];
      try discriminate Hone. reflexivity.
  - intros H. cbn [flat_map]. specialize (Hone x).
    destruct (Dict.get key x [x]) as [|v [|? ?]]; try discriminate Hone.
    cbn [app nth_error]. apply IH, H.
Qed.

Section MonoalphaSearch.
Variable isalpha : char -> bool.
Variable isspace : char -> bool.
Variable lower : str -> str.

(** C5: the key of [break_monoalpha_simple] pairs, position by
    position, the observed letters in descending order of count with
    the reference letters in descending order of frequency; it has one
    entry per distinct observed letter, up to the 26 reference letters,
    and the decryption copies every character that has no entry. *)
Theorem break_monoalpha_simple_key (self : CryptoAnalyzer) :
  let observed := sorted_encrypted self in
  let key := frequency_key self in
  let decrypted := fst (break_monoalpha_simple isalpha isspace lower self) in
  (Permutation observed (Dict.items (Counter (clean_text self))) /\
   (forall c n, In (c, n) observed <->
      In c (clean_text self) /\
      n = Z.of_nat (count_occ Z.eq_dec (clean_text self) c)) /\
   StronglySorted (fun a b => snd b <= snd a) observed) /\
  (Permutation sorted_french (Dict.items FR_FREQUENCIES) /\
   StronglySorted (fun a b => (snd b <= snd a)%Q) sorted_french /\
   List.map fst sorted_french = lit "eastinrulodcpmbvfghqjxyzkw") /\
  (key = List.map (fun p => (fst (fst p), [fst (snd p)]))
           (combine observed sorted_french) /\
   (forall n o r, nth_error observed n = Some o ->
      nth_error sorted_french n = Some r ->
      Dict.get key (fst o) [fst o] = [fst r]) /\
   List.length key
   = Nat.min (List.length (nodup Z.eq_dec (clean_text self))) 26) /\
  (decrypted = monoalpha_decrypt (encrypted self) key /\
   List.length decrypted = List.length (encrypted self) /\
   forall i c, nth_error (encrypted self) i = Some c ->
     Dict.mem key c = false -> nth_error decrypted i = Some c).
Proof.
  intros observed key decrypted.
  destruct (sorted_encrypted_spec self) as [Hperm Hsorted].
  destruct sorted_french_spec as [Hfperm Hfsorted].
  destruct (frequency_key_zip self) as [Hzip Hnd].
  destruct (Counter_spec (clean_text self)) as [_ [_ [_ [Hitems Hlen]]]].
  fold observed in Hperm, Hsorted, Hzip. fold key in Hzip, Hnd.
  assert (Hsingle : Forall (fun kv => List.length (snd kv) = 1%nat) key).
  { rewrite Hzip. apply Forall_forall. intros kv Hkv.
    apply in_map_iff in Hkv as [p [<- _]]. reflexivity. }
  split; [|split; [|split]].
  - split; [exact Hperm|]. split; [|exact Hsorted].
    intros c n. rewrite <- Hitems. split; intros H.
    + apply (Permutation_in _ Hperm), H.
    + apply (Permutation_in _ (Permutation_sym Hperm)), H.
  - split; [exact Hfperm|]. split; [exact Hfsorted|]. vm_compute. reflexivity.
  - split; [exact Hzip|]. split.
    + intros n o r Ho Hr. apply dict_get_in; [exact Hnd|].
      rewrite Hzip.
      apply (in_map (fun p : (char * Z) * (char * Q) =>
                       (fst (fst p), [fst (snd p)])) _ (o, r)).
      apply nth_error_In with (n := n). apply combine_nth_error; assumption.
    + rewrite Hzip, length_map, length_combine.
      rewrite (Permutation_length Hperm). unfold Dict.items. rewrite Hlen.
      f_equal.
  - change decrypted with (monoalpha_decrypt (encrypted self) key).
    split; [reflexivity|].
    split; [apply monoalpha_decrypt_length, Hsingle|].
    intros i c Hi Hc.
    rewrite (monoalpha_decrypt_nth _ _ _ _ Hsingle Hi).
    rewrite dict_get_absent by exact Hc. reflexivity.
Qed.

End MonoalphaSearch.

(** * The code on concrete texts, with the Unicode tables *)

Lemma isalpha_ascii_lowercase (c : char) :
  cp "a" <= c <= cp "z" -> Unicode.isalpha c = true.
Proof.
  change (cp "a") with 97. change (cp "z") with 122. intros H.
  unfold Unicode.isalpha. apply existsb_exists. exists (97, 122). split.
  - unfold Unicode.letter_ranges. right. left. reflexivity.
  - unfold Unicode.in_range. cbn [fst snd].
    apply andb_true_iff. split; apply Z.leb_le; lia.
Qed.

Lemma isalpha_ascii_uppercase (c : char) :
  cp "A" <= c <= cp "Z" -> Unicode.isalpha c = true.
Proof.
  change (cp "A") with 65. change (cp "Z") with 90. intros H.
  unfold Unicode.isalpha. apply existsb_exists. exists (65, 90). split.
  - unfold Unicode.letter_ranges. left. reflexivity.
  - unfold Unicode.in_range. cbn [fst snd].
    apply andb_true_iff. split; apply Z.leb_le; lia.
Qed.

(** The analyzer of the empty ciphertext. *)
Example init_empty :
  __init__ Unicode.isalpha Unicode.lower_latin1 [] = mkCryptoAnalyzer [] [].
Proof. reflexivity. Qed.

(** [caesar_decrypt("ceci est un secret", -7)] and the search on it. *)
Example encrypt_secret :
  caesar_decrypt Unicode.isalpha (lit "ceci est un secret") (- 7)
  = lit "jljp lza bu zljyla".
Proof. vm_compute. reflexivity. Qed.

Example break_secret :
  option_map (fun r => (fst (fst r), snd (fst r)))
    (break_caesar Unicode.isalpha Unicode.isspace Unicode.lower_latin1
       (__init__ Unicode.isalpha Unicode.lower_latin1
          (lit "jljp lza bu zljyla")))
  = Some (7, lit "ceci est un secret").
Proof. vm_compute. reflexivity. Qed.

(** The key found for the second demonstration text. *)
Example frequency_key_demo :
  frequency_key
    (__init__ Unicode.isalpha Unicode.lower_latin1
       (lit "ur oxmmdvu cru kud rudrriau cru qdpvxiu"))
  = [ (cp "u", lit "e"); (cp "r", lit "a"); (cp "d", lit "s");
      (cp "x", lit "t"); (cp "m", lit "i"); (cp "v", lit "n");
      (cp "c", lit "r"); (cp "i", lit "u"); (cp "o", lit "l");
      (cp "k", lit "o"); (cp "a", lit "d"); (cp "q", lit "c");
      (cp "p", lit "p") ].
Proof. vm_compute. reflexivity. Qed.

(** An upper-case letter under shift 3: [B] becomes [s], neither [Y]
    nor [y]. *)
Example caesar_uppercase :
  caesar_decrypt Unicode.isalpha (lit "Bb") 3 = lit "sy".
Proof. vm_compute. reflexivity. Qed.

(** ** Instances of the conditional statements *)

Lemma decrypt_preserves_length_witness :
  let key := [(cp "u", lit "e"); (cp "r", lit "a")] in
  Forall (fun kv => List.length (snd kv) = 1%nat) key /\
  len (caesar_decrypt Unicode.isalpha (lit "ur oxmmdvu") 29)
  = len (lit "ur oxmmdvu") /\
  len (monoalpha_decrypt (lit "ur oxmmdvu") key) = len (lit "ur oxmmdvu").
Proof.
  intros key.
  assert (H : Forall (fun kv : char * str => List.length (snd kv) = 1%nat) key)
    by (repeat constructor).
  split; [exact H|].
  exact (decrypt_preserves_length Unicode.isalpha (lit "ur oxmmdvu") 29 key H).
Defined.

Lemma caesar_decrypt_alphabetic_witness :
  nth_error (lit "Bonjour") 0 = Some (cp "B") /\
  Unicode.isalpha (cp "B") = true /\
  nth_error (caesar_decrypt Unicode.isalpha (lit "Bonjour") 3) 0
  = Some (cp "s").
Proof.
  split; [reflexivity|]. split; [vm_compute; reflexivity|].
  exact (proj1 (caesar_decrypt_alphabetic Unicode.isalpha (lit "Bonjour") 3
                  0 (cp "B") eq_refl
                  (isalpha_ascii_uppercase (cp "B") ltac:(vm_compute; split; discriminate)))).
Defined.

Lemma non_alphabetic_pass_through_witness :
  nth_error (lit "ur, oxm") 2 = Some (cp ",") /\
  Unicode.isalpha (cp ",") = false /\
  nth_error (caesar_decrypt Unicode.isalpha (lit "ur, oxm") 5) 2
  = Some (cp ",") /\
  ~ In (cp ",") (letters Unicode.isalpha (lit "ur, oxm")).
Proof.
  split; [reflexivity|]. split; [vm_compute; reflexivity|].
  destruct (non_alphabetic_pass_through Unicode.isalpha (lit "ur, oxm") 5 2
              (cp ",") eq_refl ltac:(vm_compute; reflexivity))
    as [H1 [H2 _]].
  split; [exact H1 | exact H2].
Defined.

Lemma caesar_round_trip_witness :
  let text := lit "ceci est un secret" in
  Forall (fun c => Unicode.isalpha c = true -> cp "a" <= c <= cp "z") text /\
  caesar_decrypt Unicode.isalpha (caesar_decrypt Unicode.isalpha text (- 7)) 7
  = text.
Proof.
  intros text.
  assert (H : Forall (fun c => Unicode.isalpha c = true ->
                               cp "a" <= c <= cp "z") text).
  { apply Forall_forall. intros c Hc Ha.
    assert (E : forallb (fun c => negb (Unicode.isalpha c)
                                  || ((cp "a" <=? c) && (c <=? cp "z")))
                  text = true) by (vm_compute; reflexivity).
    rewrite forallb_forall in E. specialize (E c Hc). rewrite Ha in E.
    apply andb_true_iff in E. destruct E as [E1 E2].
    split; apply Z.leb_le; assumption. }
  split; [exact H|].
  exact (caesar_round_trip Unicode.isalpha text 7 isalpha_ascii_lowercase H).
Defined.

Lemma break_caesar_deterministic_witness :
  let a := mkCryptoAnalyzer (lit "jljp lza") (lit "jljplza") in
  let b := mkCryptoAnalyzer (lit "jljp lza") [] in
  encrypted a = encrypted b /\
  exists r : Z * str * float,
    break_caesar Unicode.isalpha Unicode.isspace Unicode.lower_latin1 a
    = Some r /\
    break_caesar Unicode.isalpha Unicode.isspace Unicode.lower_latin1 b
    = Some r.
Proof.
  intros a b. split; [reflexivity|].
  exact (break_caesar_deterministic Unicode.isalpha Unicode.isspace
           Unicode.lower_latin1 a b eq_refl).
Defined.

(** ** Accented letters

    The letter [é] (U+00E9) is alphabetic for [str.isalpha]. *)

(** C1, as stated, fails on [é]: [caesar_decrypt] turns it into [g]
    under shift 0, and the letters-only view of [chi_squared_score]
    keeps it, so that the score of the text [é] is finite. *)
Lemma accented_letter_not_passed_through :
  Unicode.isalpha 233 = true /\
  caesar_decrypt Unicode.isalpha [233] 0 = lit "g" /\
  letters Unicode.isalpha [233] = [233] /\
  chi_squared_score Unicode.isalpha [233] <> Inf /\
  ~ (forall (text : str) (shift : Z) (i : nat) (c : char),
       nth_error text i = Some c ->
       ~ (cp "a" <= c <= cp "z") ->
       nth_error (caesar_decrypt Unicode.isalpha text shift) i = Some c /\
       ~ In c (letters Unicode.isalpha text)).
Proof.
  split; [vm_compute; reflexivity|].
  split; [vm_compute; reflexivity|].
  split; [vm_compute; reflexivity|].
  split.
  - unfold chi_squared_score.
    change (letters Unicode.isalpha [233]) with [233].
    cbv iota. discriminate.
  - intros H.
    destruct (H [233] 0 0%nat 233 eq_refl) as [H1 _].
    + vm_compute. intros [_ H2]. apply H2. reflexivity.
    + vm_compute in H1. discriminate H1.
Qed.

(** C3, as stated, fails on the text [é], which is lower-case and
    alphabetic: encrypting with shift 7 gives [n] and decrypting gives
    [g]. *)
Lemma round_trip_fails_on_accented_letter :
  Unicode.isalpha 233 = true /\
  Unicode.lower_latin1 [233] = [233] /\
  caesar_decrypt Unicode.isalpha [233] (- 7) = lit "n" /\
  caesar_decrypt Unicode.isalpha (caesar_decrypt Unicode.isalpha [233] (- 7)) 7
  = lit "g" /\
  caesar_decrypt Unicode.isalpha (caesar_decrypt Unicode.isalpha [233] (- 7)) 7
  <> [233].
Proof.
  repeat split; try (vm_compute; reflexivity).
  vm_compute. discriminate.
Qed.

(** * Further properties of the transforms *)

Section CaesarAlgebra.
Variable isalpha : char -> bool.

Lemma caesar_char_range (shift : Z) (c : char) :
  isalpha c = true -> 97 <= caesar_char isalpha shift c <= 122.
Proof.
  intros H. rewrite caesar_char_alpha by exact H.
  pose proof (Z.mod_pos_bound (c - 97 - shift) 26 ltac:(lia)). lia.
Qed.

Lemma caesar_char_normal (shift : Z) (c : char) :
  isalpha (caesar_char isalpha shift c) = true ->
  97 <= caesar_char isalpha shift c <= 122.
Proof.
  destruct (isalpha c) eqn:Hc.
  - intros _. apply caesar_char_range, Hc.
  - rewrite caesar_char_other by exact Hc. congruence.
Qed.

Lemma caesar_char_compose (a b : Z) (c : char) :
  (forall x, 97 <= x <= 122 -> isalpha x = true) ->
  caesar_char isalpha b (caesar_char isalpha a c)
  = caesar_char isalpha (a + b) c.
Proof.
  intros Haz. destruct (isalpha c) eqn:Hc.
  - pose proof (caesar_char_range a c Hc) as Hr.
    rewrite (caesar_char_alpha isalpha b) by (apply Haz, Hr).
    rewrite !caesar_char_alpha by exact Hc. f_equal.
    replace (97 + (c - 97 - a) mod 26 - 97 - b)
      with ((c - 97 - a) mod 26 - b) by lia.
    rewrite Zminus_mod, Z.mod_mod, <- Zminus_mod by lia.
    f_equal. lia.
  - rewrite (caesar_char_other isalpha a c Hc).
    rewrite !caesar_char_other by exact Hc. reflexivity.
Qed.

Lemma caesar_char_fixed (k : Z) (c : char) :
  (isalpha c = true -> 97 <= c <= 122) ->
  caesar_char isalpha (26 * k) c = c.
Proof.
  intros H. destruct (isalpha c) eqn:Hc.
  - specialize (H eq_refl). rewrite caesar_char_alpha by exact Hc.
    replace (c - 97 - 26 * k) with (c - 97 + (- k) * 26) by lia.
    rewrite Z.mod_add, Z.mod_small by lia. lia.
  - apply caesar_char_other, Hc.
Qed.

Lemma caesar_char_mask (shift : Z) (c : char) :
  (forall x, 97 <= x <= 122 -> isalpha x = true) ->
  isalpha (caesar_char isalpha shift c) = isalpha c.
Proof.
  intros Haz. destruct (isalpha c) eqn:Hc.
  - apply Haz, caesar_char_range, Hc.
  - rewrite caesar_char_other by exact Hc. exact Hc.
Qed.

Lemma chi_squared_score_inf (text : str) :
  chi_squared_score isalpha text = Inf <-> letters isalpha text = [].
Proof.
  unfold chi_squared_score. destruct (letters isalpha text).
  - split; reflexivity.
  - split; discriminate.
Qed.

Lemma letters_caesar_length (text : str) (s : Z) :
  (forall x, 97 <= x <= 122 -> isalpha x = true) ->
  List.length (letters isalpha (caesar_decrypt isalpha text s))
  = List.length (letters isalpha text).
Proof.
  intros Haz. unfold letters, caesar_decrypt.
  induction text as [|c text IH]; [reflexivity|].
  cbn [List.map filter]. rewrite (caesar_char_mask s c Haz).
  destruct (isalpha c); cbn [List.length]; rewrite IH; reflexivity.
Qed.

(** X1: whatever the input and the shift, every alphabetic character
    of the output of [caesar_decrypt] is one of a-z. *)
Theorem caesar_decrypt_normalises (text : str) (s : Z) :
  Forall (fun c => isalpha c = true -> cp "a" <= c <= cp "z")
    (caesar_decrypt isalpha text s).
Proof.
  unfold caesar_decrypt. apply Forall_forall. intros x Hx.
  apply in_map_iff in Hx as [c [<- _]]. apply caesar_char_normal.
Qed.

(** X2: two decryptions in a row are one decryption by the sum of the
    shifts, on every text, as soon as the letters a-z are alphabetic. *)
Theorem caesar_decrypt_compose (text : str) (a b : Z) :
  (forall c, cp "a" <= c <= cp "z" -> isalpha c = true) ->
  caesar_decrypt isalpha (caesar_decrypt isalpha text a) b
  = caesar_decrypt isalpha text (a + b).
Proof.
  intros Haz. unfold caesar_decrypt. rewrite map_map.
  apply map_ext. intros c. apply caesar_char_compose, Haz.
Qed.

(** X3: decrypting with shift 0, or with any multiple of 26, gives the
    text back exactly when all the alphabetic characters of the text
    are among a-z. *)
Theorem caesar_decrypt_fixed_point (text : str) (k : Z) :
  caesar_decrypt isalpha text (26 * k) = text <->
  Forall (fun c => isalpha c = true -> cp "a" <= c <= cp "z") text.
Proof.
  split.
  - intros E. rewrite <- E. unfold caesar_decrypt.
    apply Forall_forall. intros x Hx.
    apply in_map_iff in Hx as [c [<- _]]. apply caesar_char_normal.
  - intros H. unfold caesar_decrypt. rewrite <- (map_id text) at 2.
    apply map_ext_in. intros c Hc. rewrite Forall_forall in H.
    apply caesar_char_fixed, H, Hc.
Qed.

(** X4: when the letters a-z are alphabetic, [caesar_decrypt] keeps
    alphabetic characters alphabetic and the others as they are, place
    by place; the letters-only view keeps its length, and the
    chi-squared score of the output is infinite exactly when that of
    the input is. *)
Theorem caesar_decrypt_letter_mask (text : str) (s : Z) :
  (forall c, cp "a" <= c <= cp "z" -> isalpha c = true) ->
  List.map isalpha (caesar_decrypt isalpha text s) = List.map isalpha text /\
  len (letters isalpha (caesar_decrypt isalpha text s))
  = len (letters isalpha text) /\
  (chi_squared_score isalpha (caesar_decrypt isalpha text s) = Inf <->
   chi_squared_score isalpha text = Inf).
Proof.
  intros Haz. split; [|split].
  - unfold caesar_decrypt. rewrite map_map. apply map_ext.
    intros c. apply caesar_char_mask, Haz.
  - unfold len. f_equal. apply letters_caesar_length, Haz.
  - rewrite !chi_squared_score_inf.
    pose proof (letters_caesar_length text s Haz) as E.
    split; intros H; rewrite H in E; cbn in E.
    + apply length_zero_iff_nil. symmetry. exact E.
    + apply length_zero_iff_nil. exact E.
Qed.

End CaesarAlgebra.

(** * Further properties of the scorer *)

Section ScorerFacts.
Variable isalpha : char -> bool.
Variable isspace : char -> bool.
Variable lower : str -> str.

Lemma word_score_range (text : str) :
  (0 <= word_score isalpha isspace lower text <= 1)%Q.
Proof.
  unfold word_score.
  destruct (List.map (letters isalpha) (split isspace (lower text)))
    as [|w ws].
  - split; discriminate.
  - apply ratio_bounds.
    + split; [unfold len; lia | apply filter_length_le].
    + unfold len. cbn [List.length]. lia.
Qed.

(** X5: [combined_score] is infinite exactly when the text has no
    alphabetic character; otherwise it is finite, at most the
    chi-squared score, at least that score minus 50, and never below
    -50. *)
Theorem combined_score_bounds (text : str) :
  match letters isalpha text with
  | [] => combined_score isalpha isspace lower text = Inf
  | _ :: _ =>
      exists chi2 q : Q,
        chi_squared_score isalpha text = Fin chi2 /\
        combined_score isalpha isspace lower text = Fin q /\
        (chi2 - 50 <= q <= chi2)%Q /\ (- (50) <= q)%Q
  end.
Proof.
  unfold combined_score.
  pose proof (word_score_range text) as [Hw0 Hw1].
  set (w := word_score isalpha isspace lower text) in *.
  unfold chi_squared_score.
  destruct (letters isalpha text) as [|c l]; [reflexivity|].
  set (chi2 := fold_left _ _ _).
  assert (Hchi : (0 <= chi2)%Q) by (apply chi_sum_nonneg, Qle_refl).
  exists chi2, (chi2 - w * 50)%Q.
  split; [reflexivity|]. split; [reflexivity|].
  split; [split|]; lra.
Qed.

Lemma chi_fold_ext (d1 d2 : Dict.t Z) (n : Z) (alphabet : str) (q : Q) :
  (forall k, In k alphabet -> Dict.get d1 k 0 = Dict.get d2 k 0) ->
  fold_left (chi_term d1 n) alphabet q = fold_left (chi_term d2 n) alphabet q.
Proof.
  revert q. induction alphabet as [|a alphabet IH]; intros q H;
    [reflexivity|].
  cbn [fold_left].
  assert (E : chi_term d1 n q a = chi_term d2 n q a).
  { unfold chi_term. rewrite (H a) by (left; reflexivity). reflexivity. }
  rewrite E. apply IH. intros k Hk. apply H. right. exact Hk.
Qed.

(** X6: the chi-squared score depends only on the number of alphabetic
    characters of the text and on the number of occurrences of each of
    a-z among them: the order of the characters, the non-alphabetic
    characters and the identity of the other letters play no part. *)
Theorem chi_squared_score_counts (t1 t2 : str) :
  len (letters isalpha t1) = len (letters isalpha t2) ->
  (forall k, In k ascii_lowercase ->
     count_occ Z.eq_dec (letters isalpha t1) k
     = count_occ Z.eq_dec (letters isalpha t2) k) ->
  chi_squared_score isalpha t1 = chi_squared_score isalpha t2.
Proof.
  intros Hlen Hcount. unfold chi_squared_score.
  destruct (letters isalpha t1) as [|c1 l1] eqn:E1,
           (letters isalpha t2) as [|c2 l2] eqn:E2;
    try reflexivity; try (unfold len in Hlen; cbn in Hlen; lia).
  rewrite Hlen. f_equal. apply chi_fold_ext. intros k Hk.
  destruct (Counter_spec (c1 :: l1)) as [_ [_ [H1 _]]].
  destruct (Counter_spec (c2 :: l2)) as [_ [_ [H2 _]]].
  rewrite H1, H2, (Hcount k Hk). reflexivity.
Qed.

Lemma filter_none {A : Type} (f : A -> bool) (l : list A) :
  len (filter f l) = 0 <-> Forall (fun x => f x = false) l.
Proof.
  unfold len. induction l as [|x l IH]; cbn [filter].
  - split; [constructor | reflexivity].
  - destruct (f x) eqn:Hx.
    + split; [cbn [List.length]; lia|].
      intros H. inversion H; congruence.
    + rewrite IH. split; [constructor; assumption|].
      intros H. inversion H; assumption.
Qed.

Lemma filter_all {A : Type} (f : A -> bool) (l : list A) :
  len (filter f l) = len l <-> Forall (fun x => f x = true) l.
Proof.
  unfold len. induction l as [|x l IH]; cbn [filter].
  - split; [constructor | reflexivity].
  - pose proof (filter_length_le f l) as Hle. unfold len in Hle.
    destruct (f x) eqn:Hx; cbn [List.length].
    + split.
      * intros H. constructor; [exact Hx | apply IH; lia].
      * intros H. inversion H; subst.
        assert (E : Z.of_nat (List.length (filter f l))
                    = Z.of_nat (List.length l)) by (apply IH; assumption).
        lia.
    + split; [lia|]. intros H. inversion H; congruence.
Qed.

Lemma ratio_zero (m n : Z) :
  0 < n -> (inject_Z m / inject_Z n == 0)%Q <-> m = 0.
Proof.
  intros Hn.
  assert (Hn' : ~ (inject_Z n == 0)%Q).
  { change 0%Q with (inject_Z 0). rewrite inject_Z_injective. lia. }
  split.
  - intros H. apply inject_Z_injective.
    rewrite <- (Qmult_div_r (inject_Z m) (inject_Z n)) by exact Hn'.
    rewrite H. apply Qmult_0_r.
  - intros ->. unfold Qdiv. apply Qmult_0_l.
Qed.

Lemma ratio_one (m n : Z) :
  0 < n -> (inject_Z m / inject_Z n == 1)%Q <-> m = n.
Proof.
  intros Hn.
  assert (Hn' : ~ (inject_Z n == 0)%Q).
  { change 0%Q with (inject_Z 0). rewrite inject_Z_injective. lia. }
  split.
  - intros H. apply inject_Z_injective.
    rewrite <- (Qmult_div_r (inject_Z m) (inject_Z n)) by exact Hn'.
    rewrite H. apply Qmult_1_r.
  - intros ->. unfold Qdiv. apply Qmult_inv_r, Hn'.
Qed.

(** X7: [word_score] is 0 exactly when no token of the text matches a
    common word, and 1 exactly when the text has a token and all its
    tokens match; a token without any alphabetic character counts as
    a token that does not match. *)
Theorem word_score_extremes (text : str) :
  let cleaned := List.map (letters isalpha) (split isspace (lower text)) in
  ((word_score isalpha isspace lower text == 0)%Q <->
   Forall (fun w => is_match w = false) cleaned) /\
  ((word_score isalpha isspace lower text == 1)%Q <->
   cleaned <> [] /\ Forall (fun w => is_match w = true) cleaned) /\
  is_match [] = false.
Proof.
  intros cleaned. unfold word_score. fold cleaned.
  destruct cleaned as [|w ws] eqn:E.
  - split; [|split; [|reflexivity]].
    + split; [constructor | reflexivity].
    + split; [discriminate | intros [H _]; contradiction].
  - assert (Hn : 0 < len (w :: ws)) by (unfold len; cbn [List.length]; lia).
    split; [|split; [|reflexivity]].
    + rewrite (ratio_zero _ _ Hn). apply filter_none.
    + rewrite (ratio_one _ _ Hn), filter_all.
      split; [intros H; split; [discriminate | exact H] | tauto].
Qed.

End ScorerFacts.

(** * Further properties of the Caesar search *)

Section CaesarSearchFacts.
Variable isalpha : char -> bool.
Variable isspace : char -> bool.
Variable lower : str -> str.

Abbreviation score' text := (combined_score isalpha isspace lower text).

Lemma caesar_decrypt_congr (text : str) (a b : Z) :
  a mod 26 = b mod 26 ->
  caesar_decrypt isalpha text a = caesar_decrypt isalpha text b.
Proof.
  intros Hab. unfold caesar_decrypt. apply map_ext. intros c.
  rewrite (caesar_char_mod isalpha a), (caesar_char_mod isalpha b), Hab.
  reflexivity.
Qed.

Lemma caesar_decrypt_twice (text : str) (a b : Z) :
  (forall x, 97 <= x <= 122 -> isalpha x = true) ->
  caesar_decrypt isalpha (caesar_decrypt isalpha text a) b
  = caesar_decrypt isalpha text (a + b).
Proof.
  intros Haz. unfold caesar_decrypt. rewrite map_map.
  apply map_ext. intros c. apply caesar_char_compose, Haz.
Qed.

Lemma letters_nil (text : str) :
  letters isalpha text = [] -> Forall (fun c => isalpha c = false) text.
Proof.
  unfold letters. induction text as [|c text IH]; [constructor|].
  cbn [filter]. destruct (isalpha c) eqn:Hc; [discriminate|].
  intros H. constructor; [exact Hc | apply IH, H].
Qed.

Lemma caesar_decrypt_no_letters (text : str) (s : Z) :
  letters isalpha text = [] -> caesar_decrypt isalpha text s = text.
Proof.
  intros H. apply letters_nil in H. unfold caesar_decrypt.
  rewrite <- (map_id text) at 2. apply map_ext_in. intros c Hc.
  rewrite Forall_forall in H. apply caesar_char_other, H, Hc.
Qed.

Lemma combined_score_finite (text : str) :
  letters isalpha text <> [] ->
  exists q : Q, score' text = Fin q /\ (- (50) <= q)%Q.
Proof.
  intros H. unfold combined_score, chi_squared_score.
  pose proof (word_score_range isalpha isspace lower text) as [Hw0 Hw1].
  set (w := word_score isalpha isspace lower text) in *.
  destruct (letters isalpha text) as [|c l]; [contradiction|].
  set (chi2 := fold_left _ _ _).
  assert (Hchi : (0 <= chi2)%Q) by (apply chi_sum_nonneg, Qle_refl).
  exists (chi2 - w * 50)%Q. split; [reflexivity | lra].
Qed.

(** X8: on a ciphertext without any alphabetic character (empty, or
    digits, blanks and punctuation only) [break_caesar] returns shift
    0, the ciphertext itself and an infinite score. *)
Theorem break_caesar_without_letters (self : CryptoAnalyzer) :
  letters isalpha (encrypted self) = [] ->
  break_caesar isalpha isspace lower self = Some (0, encrypted self, Inf).
Proof.
  intros H.
  assert (Hcand : forall t, candidate isalpha isspace lower self t
                            = (t, encrypted self, Inf)).
  { intros t. unfold candidate. cbv zeta.
    rewrite (caesar_decrypt_no_letters _ t H).
    unfold combined_score, chi_squared_score. rewrite H. reflexivity. }
  destruct (break_caesar_first_minimum isalpha isspace lower self)
    as [shift [Hs [Hbest [_ Hfirst]]]].
  rewrite Hbest, Hcand.
  destruct (Z.eq_dec shift 0) as [->|Hne]; [reflexivity|].
  specialize (Hfirst 0 ltac:(lia)). rewrite !Hcand in Hfirst.
  cbn in Hfirst. discriminate Hfirst.
Qed.

(** X9: when the letters a-z are alphabetic and the ciphertext has an
    alphabetic character, [break_caesar] returns a shift in 0..25, a
    plaintext as long as the ciphertext and a finite score that is at
    least -50. *)
Theorem break_caesar_finite_score (self : CryptoAnalyzer) :
  (forall c, cp "a" <= c <= cp "z" -> isalpha c = true) ->
  letters isalpha (encrypted self) <> [] ->
  exists (shift : Z) (plaintext : str) (q : Q),
    break_caesar isalpha isspace lower self
    = Some (shift, plaintext, Fin q) /\
    0 <= shift < 26 /\
    len plaintext = len (encrypted self) /\
    (- (50) <= q)%Q.
Proof.
  intros Haz Hletters.
  destruct (break_caesar_first_minimum isalpha isspace lower self)
    as [shift [Hs [Hbest _]]].
  set (plaintext := caesar_decrypt isalpha (encrypted self) shift).
  assert (Hp : letters isalpha plaintext <> []).
  { intros E. apply Hletters. apply length_zero_iff_nil.
    rewrite <- (letters_caesar_length isalpha (encrypted self) shift Haz).
    fold plaintext. rewrite E. reflexivity. }
  destruct (combined_score_finite plaintext Hp) as [q [Hq Hbound]].
  exists shift, plaintext, q. split; [|split; [exact Hs|split]].
  - rewrite Hbest. unfold candidate. cbv zeta. fold plaintext.
    rewrite Hq. reflexivity.
  - unfold len, plaintext. f_equal. apply caesar_decrypt_length.
  - exact Hbound.
Qed.

(** X10: when the alphabetic characters of the ciphertext are all
    among a-z, the result of [break_caesar] is consistent: encrypting
    the returned plaintext with the returned shift gives the
    ciphertext back. *)
Theorem break_caesar_reencrypt (self : CryptoAnalyzer) :
  (forall c, cp "a" <= c <= cp "z" -> isalpha c = true) ->
  Forall (fun c => isalpha c = true -> cp "a" <= c <= cp "z")
    (encrypted self) ->
  exists (shift : Z) (plaintext : str) (s : float),
    break_caesar isalpha isspace lower self = Some (shift, plaintext, s) /\
    caesar_decrypt isalpha plaintext (- shift) = encrypted self.
Proof.
  intros Haz Htext.
  destruct (break_caesar_first_minimum isalpha isspace lower self)
    as [shift [_ [Hbest _]]].
  exists shift, (caesar_decrypt isalpha (encrypted self) shift),
    (score' (caesar_decrypt isalpha (encrypted self) shift)).
  split; [exact Hbest|].
  rewrite caesar_decrypt_twice by exact Haz.
  replace (shift + - shift) with (26 * 0) by lia.
  unfold caesar_decrypt. rewrite <- (map_id (encrypted self)) at 2.
  apply map_ext_in. intros c Hc. rewrite Forall_forall in Htext.
  apply caesar_char_fixed, Htext, Hc.
Qed.

(** X11: when the letters a-z are alphabetic, the score returned by
    [break_caesar] is the same for a ciphertext and for the same
    ciphertext shifted once more by any amount. *)
Theorem break_caesar_score_shift_invariant (self : CryptoAnalyzer)
    (k : Z) (clean : str) :
  (forall c, cp "a" <= c <= cp "z" -> isalpha c = true) ->
  exists r1 r2 : Z * str * float,
    break_caesar isalpha isspace lower self = Some r1 /\
    break_caesar isalpha isspace lower
      (mkCryptoAnalyzer (caesar_decrypt isalpha (encrypted self) k) clean)
    = Some r2 /\
    float_le (snd r1) (snd r2) /\ float_le (snd r2) (snd r1).
Proof.
  intros Haz.
  set (other := mkCryptoAnalyzer (caesar_decrypt isalpha (encrypted self) k)
                  clean).
  destruct (break_caesar_first_minimum isalpha isspace lower self)
    as [s1 [Hs1 [Hbest1 [Hmin1 _]]]].
  destruct (break_caesar_first_minimum isalpha isspace lower other)
    as [s2 [Hs2 [Hbest2 [Hmin2 _]]]].
  assert (Hother : forall t,
            snd (candidate isalpha isspace lower other t)
            = snd (candidate isalpha isspace lower self ((k + t) mod 26))).
  { intros t. unfold candidate, other. cbn [snd encrypted].
    rewrite caesar_decrypt_twice by exact Haz.
    rewrite (caesar_decrypt_congr _ (k + t) ((k + t) mod 26))
      by (rewrite Z.mod_mod by lia; reflexivity).
    reflexivity. }
  eexists. eexists. split; [exact Hbest1|]. split; [exact Hbest2|]. split.
  - rewrite Hother. apply Hmin1. apply Z.mod_pos_bound. lia.
  - specialize (Hmin2 ((s1 - k) mod 26) ltac:(apply Z.mod_pos_bound; lia)).
    rewrite (Hother ((s1 - k) mod 26)) in Hmin2.
    replace ((k + (s1 - k) mod 26) mod 26) with s1 in Hmin2; [exact Hmin2|].
    rewrite Zplus_mod_idemp_r. replace (k + (s1 - k)) with s1 by lia.
    rewrite Z.mod_small by lia. reflexivity.
Qed.

End CaesarSearchFacts.

(** * Further properties of the substitution search *)

Lemma combine_values_NoDup {A B : Type} (a : list A) (b : list (char * B)) :
  NoDup (List.map fst b) ->
  NoDup (List.map (fun p => fst (snd p)) (combine a b)).
Proof.
  revert b. induction a as [|x a IH]; intros [|y b] H; cbn; try constructor.
  - inversion H as [|? ? Hnotin _]; subst. intros Hin. apply Hnotin.
    apply in_map_iff in Hin as [[x' y'] [Hfst Hin]]. cbn in Hfst.
    apply in_combine_r in Hin. rewrite <- Hfst. apply in_map, Hin.
  - apply IH. inversion H; assumption.
Qed.

Lemma NoDup_map_inj_in {A B : Type} (f : A -> B) (l : list A) (x y : A) :
  NoDup (List.map f l) -> In x l -> In y l -> f x = f y -> x = y.
Proof.
  induction l as [|a l IH]; cbn [List.map In]; [contradiction|].
  intros Hnd Hx Hy E. inversion Hnd as [|? ? Hnotin Hnd']; subst.
  destruct Hx as [->|Hx], Hy as [->|Hy].
  - reflexivity.
  - exfalso. apply Hnotin. rewrite E. apply in_map, Hy.
  - exfalso. apply Hnotin. rewrite <- E. apply in_map, Hx.
  - apply IH; assumption.
Qed.

Lemma FR_FREQUENCIES_letters :
  NoDup (Dict.keys FR_FREQUENCIES) /\
  Forall (fun e => 97 <= fst e <= 122) FR_FREQUENCIES.
Proof.
  split.
  - assert (E : nodup Z.eq_dec (Dict.keys FR_FREQUENCIES)
                = Dict.keys FR_FREQUENCIES) by (vm_compute; reflexivity).
    rewrite <- E. apply NoDup_nodup.
  - unfold FR_FREQUENCIES. repeat constructor; cbn; lia.
Qed.

Lemma sorted_french_letters :
  NoDup (List.map fst sorted_french) /\
  Forall (fun e => 97 <= fst e <= 122) sorted_french /\
  List.length sorted_french = 26%nat.
Proof.
  destruct sorted_french_spec as [Hperm _].
  destruct FR_FREQUENCIES_letters as [Hnd Haz].
  split; [|split].
  - apply (Permutation_NoDup (l := Dict.keys FR_FREQUENCIES));
      [|exact Hnd].
    symmetry. apply Permutation_map, Hperm.
  - apply (Permutation_Forall (Permutation_sym Hperm)), Haz.
  - rewrite (Permutation_length Hperm). reflexivity.
Qed.

Lemma frequency_key_entry (self : CryptoAnalyzer) (c : char) (v : str) :
  In (c, v) (frequency_key self) ->
  exists o f, In (o, f) (combine (sorted_encrypted self) sorted_french) /\
              c = fst o /\ v = [fst f].
Proof.
  destruct (frequency_key_zip self) as [Hzip _]. rewrite Hzip.
  intros H. apply in_map_iff in H as [[o f] [E Hin]]. cbn in E.
  exists o, f. split; [exact Hin|]. split; congruence.
Qed.

Lemma sorted_encrypted_In (self : CryptoAnalyzer) (o : char * Z) :
  In o (sorted_encrypted self) <->
  In (fst o) (clean_text self) /\
  snd o = Z.of_nat (count_occ Z.eq_dec (clean_text self) (fst o)).
Proof.
  destruct (sorted_encrypted_spec self) as [Hperm _].
  destruct (Counter_spec (clean_text self)) as [_ [_ [_ [Hitems _]]]].
  destruct o as [c n]. cbn [fst snd]. rewrite <- Hitems. split; intros H.
  - apply (Permutation_in _ Hperm), H.
  - apply (Permutation_in _ (Permutation_sym Hperm)), H.
Qed.

Lemma frequency_key_single (self : CryptoAnalyzer) :
  Forall (fun kv => List.length (snd kv) = 1%nat) (frequency_key self).
Proof.
  apply Forall_forall. intros [c v] H.
  apply frequency_key_entry in H as [o [f [_ [_ ->]]]]. reflexivity.
Qed.

Lemma frequency_key_pairing (self : CryptoAnalyzer) (n : nat)
    (o : char * Z) (f : char * Q) (dflt : str) :
  nth_error (sorted_encrypted self) n = Some o ->
  nth_error sorted_french n = Some f ->
  Dict.get (frequency_key self) (fst o) dflt = [fst f].
Proof.
  intros Ho Hf. destruct (frequency_key_zip self) as [Hzip Hnd].
  apply dict_get_in; [exact Hnd|]. rewrite Hzip.
  apply (in_map (fun p : (char * Z) * (char * Q) =>
                   (fst (fst p), [fst (snd p)])) _ (o, f)).
  apply nth_error_In with (n := n). apply combine_nth_error; assumption.
Qed.

(** X12: a substitution decryption leaves the text as it is when no
    character of the text is a key of the dictionary, whatever the
    values of the dictionary; so does the empty key on every text. *)
Theorem monoalpha_decrypt_no_entry (text : str) (key : Dict.t str) :
  Forall (fun c => Dict.mem key c = false) text ->
  monoalpha_decrypt text key = text /\ monoalpha_decrypt text [] = text.
Proof.
  intros H. unfold monoalpha_decrypt. split.
  - induction H as [|c text Hc _ IH]; [reflexivity|].
    cbn [flat_map]. rewrite dict_get_absent by exact Hc.
    rewrite IH. reflexivity.
  - clear H. induction text as [|c text IH]; [reflexivity|].
    cbn [flat_map Dict.get app] in IH |- *. rewrite IH. reflexivity.
Qed.

(** X13: the key built by [break_monoalpha_simple] is a partial
    injection: its keys are distinct characters of the cleaned text,
    its values are single letters of a-z, no letter is the value of two
    keys, and it has at most 26 entries. *)
Theorem frequency_key_injective (self : CryptoAnalyzer) :
  let key := frequency_key self in
  NoDup (Dict.keys key) /\
  (forall c v, In (c, v) key ->
     In c (clean_text self) /\
     exists r, v = [r] /\ cp "a" <= r <= cp "z") /\
  (forall c1 c2 v, In (c1, v) key -> In (c2, v) key -> c1 = c2) /\
  (List.length key <= 26)%nat.
Proof.
  intros key. subst key.
  destruct (frequency_key_zip self) as [Hzip Hnd].
  destruct sorted_french_letters as [Hfnd [Hfaz Hflen]].
  split; [exact Hnd|]. split; [|split].
  - intros c v H. apply frequency_key_entry in H as [o [f [Hin [-> ->]]]].
    split.
    + apply in_combine_l in Hin. apply sorted_encrypted_In in Hin.
      apply Hin.
    + exists (fst f). split; [reflexivity|].
      apply in_combine_r in Hin. rewrite Forall_forall in Hfaz.
      apply (Hfaz f Hin).
  - intros c1 c2 v H1 H2.
    apply frequency_key_entry in H1 as [o1 [f1 [Hin1 [-> E1]]]].
    apply frequency_key_entry in H2 as [o2 [f2 [Hin2 [-> E2]]]].
    assert (E : (o1, f1) = (o2, f2)).
    { apply (NoDup_map_inj_in (fun p : (char * Z) * (char * Q) =>
                                 fst (snd p))
               (combine (sorted_encrypted self) sorted_french));
        [apply combine_values_NoDup, Hfnd | exact Hin1 | exact Hin2 |].
      cbn. congruence. }
    congruence.
  - rewrite Hzip, length_map, length_combine, Hflen. apply Nat.le_min_r.
Qed.

(** X14: on a non-empty cleaned text, a letter whose number of
    occurrences is the largest is decrypted as [e]. *)
Theorem frequency_key_most_frequent (self : CryptoAnalyzer) :
  clean_text self <> [] ->
  exists c : char,
    In c (clean_text self) /\
    (forall c', (count_occ Z.eq_dec (clean_text self) c'
                 <= count_occ Z.eq_dec (clean_text self) c)%nat) /\
    Dict.get (frequency_key self) c [c] = lit "e".
Proof.
  intros Hne.
  destruct (sorted_encrypted_spec self) as [Hperm Hsorted].
  destruct (sorted_encrypted self) as [|[c n] rest] eqn:Hobs.
  - exfalso. destruct (clean_text self) as [|x s] eqn:Hs; [contradiction|].
    assert (Hx : In (x, Z.of_nat (count_occ Z.eq_dec (x :: s) x))
                   (sorted_encrypted self)).
    { apply sorted_encrypted_In. cbn [fst snd]. rewrite Hs.
      split; [left; reflexivity | reflexivity]. }
    rewrite Hobs in Hx. exact Hx.
  - assert (Hc : In (c, n) (sorted_encrypted self))
      by (rewrite Hobs; left; reflexivity).
    apply sorted_encrypted_In in Hc as [Hc Hn]. cbn [fst snd] in Hc, Hn.
    exists c. split; [exact Hc|]. split.
    + intros c'.
      destruct (in_dec Z.eq_dec c' (clean_text self)) as [Hin|Hout].
      * assert (H' : In (c', Z.of_nat (count_occ Z.eq_dec (clean_text self) c'))
                       (sorted_encrypted self)).
        { apply sorted_encrypted_In. cbn [fst snd]. split; [exact Hin|].
          reflexivity. }
        rewrite Hobs in H'. destruct H' as [H'|H'].
        -- injection H' as -> _. apply le_n.
        -- inversion Hsorted as [|? ? _ Hall]; subst.
           rewrite Forall_forall in Hall. specialize (Hall _ H').
           cbn [snd] in Hall. lia.
      * apply (count_occ_not_In Z.eq_dec) in Hout. rewrite Hout.
        apply Nat.le_0_l.
    + change c with (fst (c, n)) at 1.
      apply (frequency_key_pairing self 0 (c, n) (cp "e", 17.26%Q)).
      * rewrite Hobs. reflexivity.
      * vm_compute. reflexivity.
Qed.

Section Stability.
Context {A K : Type}.
Variable ltb : K -> K -> bool.
Variable key : A -> K.
Variable p : A -> bool.
Hypothesis p_ties :
  forall x y, p x = true -> p y = true -> ltb (key x) (key y) = false.

Lemma insert_desc_filter (x : A) (l : list A) :
  filter p (insert_desc ltb key x l) = filter p (x :: l).
Proof.
  induction l as [|y l IH]; cbn [insert_desc]; [reflexivity|].
  destruct (ltb (key x) (key y)) eqn:Hxy; [|reflexivity].
  cbn [filter] in IH |- *. rewrite IH.
  destruct (p x) eqn:Hx; [|reflexivity].
  destruct (p y) eqn:Hy; [|reflexivity].
  rewrite (p_ties x y Hx Hy) in Hxy. discriminate Hxy.
Qed.

Lemma sorted_reverse_filter (l : list A) :
  filter p (sorted_reverse ltb key l) = filter p l.
Proof.
  induction l as [|x l IH]; cbn [sorted_reverse]; [reflexivity|].
  rewrite insert_desc_filter. cbn [filter]. rewrite IH. reflexivity.
Qed.

End Stability.

(** X15: the two sorts keep ties in their original order: the observed
    letters that share a count stay in the order of the counter, which
    is the order of their first occurrence in the cleaned text, and the
    reference letters that share a frequency stay in the order of the
    table. *)
Theorem sorted_ties_keep_order (self : CryptoAnalyzer) (n : Z) (q : Q)
    (s : str) (c : char) :
  filter (fun e => snd e =? n) (sorted_encrypted self)
  = filter (fun e => snd e =? n) (Dict.items (Counter (clean_text self))) /\
  filter (fun e => Qeq_bool (snd e) q) sorted_french
  = filter (fun e => Qeq_bool (snd e) q) (Dict.items FR_FREQUENCIES) /\
  Dict.keys (Counter (s ++ [c]))
  = Dict.keys (Counter s) ++ (if in_dec Z.eq_dec c s then [] else [c]).
Proof.
  split; [|split].
  - unfold sorted_encrypted. apply sorted_reverse_filter.
    intros x y Hx Hy. apply Z.eqb_eq in Hx, Hy. apply Z.ltb_ge. lia.
  - unfold sorted_french. apply sorted_reverse_filter.
    intros x y Hx Hy. apply Qeq_bool_iff in Hx, Hy.
    apply Qcompare_ltb_false. rewrite Hx, Hy. apply Qle_refl.
  - unfold Counter. rewrite fold_left_app. cbn [fold_left].
    fold (Counter s). unfold count_step.
    destruct (Counter_spec s) as [_ [Hkeys _]].
    destruct (in_dec Z.eq_dec c s) as [Hin|Hout].
    + rewrite dict_set_present by (apply Hkeys, Hin).
      rewrite app_nil_r. reflexivity.
    + rewrite dict_set_absent by (rewrite Hkeys; exact Hout).
      unfold Dict.keys. rewrite map_app. reflexivity.
Qed.

Section MonoalphaOnInit.
Variable isalpha : char -> bool.
Variable isspace : char -> bool.
Variable lower : str -> str.

(** X16: for an analyzer built by the constructor,
    [break_monoalpha_simple] copies every non-alphabetic character of
    the ciphertext in place, and, when the ciphertext has at most 26
    distinct alphabetic characters, puts a letter of a-z at the place
    of every alphabetic character. *)
Theorem break_monoalpha_simple_on_init (text : str) :
  let self := __init__ isalpha lower text in
  let decrypted := fst (break_monoalpha_simple isalpha isspace lower self) in
  clean_text self = letters isalpha (encrypted self) /\
  (forall i c, nth_error (encrypted self) i = Some c ->
     isalpha c = false -> nth_error decrypted i = Some c) /\
  ((List.length (nodup Z.eq_dec (clean_text self)) <= 26)%nat ->
   forall i c, nth_error (encrypted self) i = Some c ->
     isalpha c = true ->
     exists r, nth_error decrypted i = Some r /\ cp "a" <= r <= cp "z").
Proof.
  intros self decrypted.
  change decrypted
    with (monoalpha_decrypt (encrypted self) (frequency_key self)).
  pose proof (frequency_key_single self) as Hsingle.
  split; [reflexivity|]. split.
  - intros i c Hi Hc.
    rewrite (monoalpha_decrypt_nth _ _ _ _ Hsingle Hi).
    rewrite dict_get_absent; [reflexivity|].
    destruct (Dict.mem (frequency_key self) c) eqn:Hmem; [|reflexivity].
    exfalso. apply dict_mem_keys in Hmem. unfold Dict.keys in Hmem.
    apply in_map_iff in Hmem as [[c' v] [E Hin]]. cbn in E. subst c'.
    apply frequency_key_entry in Hin as [o [f [Hin [-> _]]]].
    apply in_combine_l in Hin. apply sorted_encrypted_In in Hin as [Hin _].
    change (clean_text self) with (filter isalpha (encrypted self)) in Hin.
    apply filter_In in Hin as [_ Hin]. congruence.
  - intros Hdistinct i c Hi Hc.
    rewrite (monoalpha_decrypt_nth _ _ _ _ Hsingle Hi).
    assert (Hclean : In c (clean_text self)).
    { change (clean_text self) with (filter isalpha (encrypted self)).
      apply filter_In. split; [apply nth_error_In in Hi; exact Hi | exact Hc]. }
    assert (Hobs : In (c, Z.of_nat (count_occ Z.eq_dec (clean_text self) c))
                     (sorted_encrypted self)).
    { apply sorted_encrypted_In. cbn [fst snd]. split; [exact Hclean|].
      reflexivity. }
    apply In_nth_error in Hobs as [j Hj].
    assert (Hlen : (j < List.length (sorted_encrypted self))%nat)
      by (apply nth_error_Some; congruence).
    destruct (sorted_encrypted_spec self) as [Hperm _].
    destruct (Counter_spec (clean_text self)) as [_ [_ [_ [_ Hcount]]]].
    rewrite (Permutation_length Hperm) in Hlen. unfold Dict.items in Hlen.
    rewrite Hcount in Hlen.
    destruct sorted_french_letters as [_ [Hfaz Hflen]].
    destruct (nth_error sorted_french j) as [f|] eqn:Hf.
    + exists (fst f).
      pose proof (frequency_key_pairing self j _ f [c] Hj Hf) as Hget.
      cbn [fst] in Hget. rewrite Hget. split; [reflexivity|].
      rewrite Forall_forall in Hfaz. apply (Hfaz f).
      apply nth_error_In in Hf. exact Hf.
    + apply nth_error_None in Hf. lia.
Qed.

End MonoalphaOnInit.

Section PlaintextAmongCandidates.
Variable isalpha : char -> bool.
Variable isspace : char -> bool.
Variable lower : str -> str.

(** X17: encrypt a text whose alphabetic characters are all among a-z
    with any shift [k]; then the text itself is the candidate of shift
    [k mod 26] of [break_caesar] on the result, and the score that
    [break_caesar] returns is at most the score of the text. *)
Theorem break_caesar_considers_plaintext (text clean : str) (k : Z) :
  (forall c, cp "a" <= c <= cp "z" -> isalpha c = true) ->
  Forall (fun c => isalpha c = true -> cp "a" <= c <= cp "z") text ->
  let self := mkCryptoAnalyzer (caesar_decrypt isalpha text (- k)) clean in
  In (k mod 26, text, combined_score isalpha isspace lower text)
    (caesar_results isalpha isspace lower self) /\
  exists r : Z * str * float,
    break_caesar isalpha isspace lower self = Some r /\
    float_le (snd r) (combined_score isalpha isspace lower text).
Proof.
  intros Haz Htext self.
  pose proof (Z.mod_pos_bound k 26 ltac:(lia)) as Hk.
  assert (E : caesar_decrypt isalpha (encrypted self) (k mod 26) = text).
  { unfold self. cbn [encrypted].
    rewrite caesar_decrypt_twice by exact Haz.
    rewrite (caesar_decrypt_congr isalpha text (- k + k mod 26) (26 * 0)).
    - unfold caesar_decrypt. rewrite <- (map_id text) at 2.
      apply map_ext_in. intros c Hc. rewrite Forall_forall in Htext.
      apply caesar_char_fixed, Htext, Hc.
    - rewrite Zplus_mod_idemp_r. replace (- k + k) with 0 by lia.
      reflexivity. }
  assert (Hcand : candidate isalpha isspace lower self (k mod 26)
                  = (k mod 26, text,
                     combined_score isalpha isspace lower text)).
  { unfold candidate. cbv zeta. rewrite E. reflexivity. }
  split.
  - rewrite <- Hcand. unfold caesar_results. apply in_map, range_In.
    exact Hk.
  - destruct (break_caesar_first_minimum isalpha isspace lower self)
      as [shift [_ [Hbest [Hmin _]]]].
    eexists. split; [exact Hbest|].
    specialize (Hmin (k mod 26) Hk). rewrite Hcand in Hmin. exact Hmin.
Qed.

End PlaintextAmongCandidates.

(** ** Instances of the further conditional statements *)

Lemma caesar_decrypt_compose_witness :
  (forall c, cp "a" <= c <= cp "z" -> Unicode.isalpha c = true) /\
  caesar_decrypt Unicode.isalpha
    (caesar_decrypt Unicode.isalpha (lit "Bonjour, Cesar") 3) 30
  = caesar_decrypt Unicode.isalpha (lit "Bonjour, Cesar") (3 + 30).
Proof.
  split; [exact isalpha_ascii_lowercase|].
  exact (caesar_decrypt_compose Unicode.isalpha (lit "Bonjour, Cesar") 3 30
           isalpha_ascii_lowercase).
Defined.

Lemma caesar_decrypt_letter_mask_witness :
  (forall c, cp "a" <= c <= cp "z" -> Unicode.isalpha c = true) /\
  List.map Unicode.isalpha (caesar_decrypt Unicode.isalpha (lit "Bo, n") 3)
  = List.map Unicode.isalpha (lit "Bo, n").
Proof.
  split; [exact isalpha_ascii_lowercase|].
  exact (proj1 (caesar_decrypt_letter_mask Unicode.isalpha (lit "Bo, n") 3
                  isalpha_ascii_lowercase)).
Defined.

Lemma chi_squared_score_counts_witness :
  let t1 := lit "le sel" ++ [233] in
  let t2 := [201] ++ lit "-selle!" in
  len (letters Unicode.isalpha t1) = len (letters Unicode.isalpha t2) /\
  (forall k, In k ascii_lowercase ->
     count_occ Z.eq_dec (letters Unicode.isalpha t1) k
     = count_occ Z.eq_dec (letters Unicode.isalpha t2) k) /\
  chi_squared_score Unicode.isalpha t1 = chi_squared_score Unicode.isalpha t2.
Proof.
  intros t1 t2.
  assert (Hlen : len (letters Unicode.isalpha t1)
                 = len (letters Unicode.isalpha t2))
    by (vm_compute; reflexivity).
  assert (Hcount : forall k, In k ascii_lowercase ->
            count_occ Z.eq_dec (letters Unicode.isalpha t1) k
            = count_occ Z.eq_dec (letters Unicode.isalpha t2) k).
  { intros k Hk. vm_compute in Hk.
    repeat (destruct Hk as [<-|Hk]; [vm_compute; reflexivity|]).
    contradiction. }
  split; [exact Hlen|]. split; [exact Hcount|].
  exact (chi_squared_score_counts Unicode.isalpha t1 t2 Hlen Hcount).
Defined.

Lemma break_caesar_without_letters_witness :
  let self := __init__ Unicode.isalpha Unicode.lower_latin1 (lit "12 + 30 ?") in
  letters Unicode.isalpha (encrypted self) = [] /\
  break_caesar Unicode.isalpha Unicode.isspace Unicode.lower_latin1 self
  = Some (0, lit "12 + 30 ?", Inf).
Proof.
  intros self.
  assert (H : letters Unicode.isalpha (encrypted self) = [])
    by (vm_compute; reflexivity).
  split; [exact H|].
  exact (break_caesar_without_letters Unicode.isalpha Unicode.isspace
           Unicode.lower_latin1 self H).
Defined.

Lemma break_caesar_finite_score_witness :
  let self := __init__ Unicode.isalpha Unicode.lower_latin1 (lit "Jljp lza") in
  letters Unicode.isalpha (encrypted self) <> [] /\
  exists (shift : Z) (plaintext : str) (q : Q),
    break_caesar Unicode.isalpha Unicode.isspace Unicode.lower_latin1 self
    = Some (shift, plaintext, Fin q) /\
    0 <= shift < 26 /\
    len plaintext = len (encrypted self) /\
    (- (50) <= q)%Q.
Proof.
  intros self.
  assert (H : letters Unicode.isalpha (encrypted self) <> [])
    by (vm_compute; discriminate).
  split; [exact H|].
  exact (break_caesar_finite_score Unicode.isalpha Unicode.isspace
           Unicode.lower_latin1 self isalpha_ascii_lowercase H).
Defined.

Lemma lowercase_text_in_az (text : str) :
  forallb (fun c => negb (Unicode.isalpha c)
                    || ((cp "a" <=? c) && (c <=? cp "z"))) text = true ->
  Forall (fun c => Unicode.isalpha c = true -> cp "a" <= c <= cp "z") text.
Proof.
  intros E. apply Forall_forall. intros c Hc Ha.
  rewrite forallb_forall in E. specialize (E c Hc). rewrite Ha in E.
  apply andb_true_iff in E. destruct E as [E1 E2].
  split; apply Z.leb_le; assumption.
Qed.

Lemma break_caesar_reencrypt_witness :
  let self := __init__ Unicode.isalpha Unicode.lower_latin1 (lit "Jljp lza") in
  Forall (fun c => Unicode.isalpha c = true -> cp "a" <= c <= cp "z")
    (encrypted self) /\
  exists (shift : Z) (plaintext : str) (s : float),
    break_caesar Unicode.isalpha Unicode.isspace Unicode.lower_latin1 self
    = Some (shift, plaintext, s) /\
    caesar_decrypt Unicode.isalpha plaintext (- shift) = encrypted self.
Proof.
  intros self.
  assert (H : Forall (fun c => Unicode.isalpha c = true ->
                               cp "a" <= c <= cp "z") (encrypted self))
    by (apply lowercase_text_in_az; vm_compute; reflexivity).
  split; [exact H|].
  exact (break_caesar_reencrypt Unicode.isalpha Unicode.isspace
           Unicode.lower_latin1 self isalpha_ascii_lowercase H).
Defined.

Lemma break_caesar_score_shift_invariant_witness :
  let self := mkCryptoAnalyzer (lit "jljp lza") (lit "jljplza") in
  (forall c, cp "a" <= c <= cp "z" -> Unicode.isalpha c = true) /\
  exists r1 r2 : Z * str * float,
    break_caesar Unicode.isalpha Unicode.isspace Unicode.lower_latin1 self
    = Some r1 /\
    break_caesar Unicode.isalpha Unicode.isspace Unicode.lower_latin1
      (mkCryptoAnalyzer
         (caesar_decrypt Unicode.isalpha (encrypted self) 11) [])
    = Some r2 /\
    float_le (snd r1) (snd r2) /\ float_le (snd r2) (snd r1).
Proof.
  intros self. split; [exact isalpha_ascii_lowercase|].
  exact (break_caesar_score_shift_invariant Unicode.isalpha Unicode.isspace
           Unicode.lower_latin1 self 11 [] isalpha_ascii_lowercase).
Defined.

Lemma monoalpha_decrypt_no_entry_witness :
  let key := [(cp "u", lit "e"); (cp "r", lit "a")] in
  Forall (fun c => Dict.mem key c = false) (lit "dix, six") /\
  monoalpha_decrypt (lit "dix, six") key = lit "dix, six".
Proof.
  intros key.
  assert (H : Forall (fun c => Dict.mem key c = false) (lit "dix, six"))
    by (repeat constructor).
  split; [exact H|].
  exact (proj1 (monoalpha_decrypt_no_entry (lit "dix, six") key H)).
Defined.

Lemma frequency_key_most_frequent_witness :
  let self := __init__ Unicode.isalpha Unicode.lower_latin1
                (lit "ur oxmmdvu cru") in
  clean_text self <> [] /\
  exists c : char,
    In c (clean_text self) /\
    (forall c', (count_occ Z.eq_dec (clean_text self) c'
                 <= count_occ Z.eq_dec (clean_text self) c)%nat) /\
    Dict.get (frequency_key self) c [c] = lit "e".
Proof.
  intros self.
  assert (H : clean_text self <> []) by (vm_compute; discriminate).
  split; [exact H|].
  exact (frequency_key_most_frequent self H).
Defined.

Lemma break_caesar_considers_plaintext_witness :
  let text := lit "ceci est un secret" in
  Forall (fun c => Unicode.isalpha c = true -> cp "a" <= c <= cp "z") text /\
  In (7 mod 26, text,
      combined_score Unicode.isalpha Unicode.isspace Unicode.lower_latin1 text)
    (caesar_results Unicode.isalpha Unicode.isspace Unicode.lower_latin1
       (mkCryptoAnalyzer (caesar_decrypt Unicode.isalpha text (- 7)) [])).
Proof.
  intros text.
  assert (H : Forall (fun c => Unicode.isalpha c = true ->
                               cp "a" <= c <= cp "z") text)
    by (apply lowercase_text_in_az; vm_compute; reflexivity).
  split; [exact H|].
  exact (proj1 (break_caesar_considers_plaintext Unicode.isalpha
                  Unicode.isspace Unicode.lower_latin1 text [] 7
                  isalpha_ascii_lowercase H)).
Defined.
